(** * Leaf: module manager, chanRPC and Skeleton

    A shallow embedding of the Go sources

      - [chanrpc]  (Server, Client, CallInfo, RetInfo),
      - [console]  (the command registry used by the Skeleton),
      - [module]   (Skeleton and the module manager),

    followed by the properties the specification states about them.

    Go code mutates shared objects, panics, recovers and blocks on
    channels.  The embedding is a state monad over a [World] that holds
    the heap of servers and reply channels; a computation ends with a
    value, with a panic, or parked on a channel operation. *)

From stdpp Require Import gmap strings list.
From Stdlib Require Import ZArith Lia.

Set Default Proof Using "Type".
Set Warnings "-register-all".
Open Scope string_scope.
Open Scope list_scope.
Open Scope Z_scope.

(** ** Go values *)

(** A panic value: a plain string ([panic("bug")]) or a value that
    implements [error] (runtime errors). *)
Inductive panicval := PStr (s : string) | PErr (e : string).

(** The three callback shapes accepted by [Client.AsynCall]:
    [func(error)], [func(interface{}, error)],
    [func([]interface{}, error)]. *)
Inductive cbshape := ShErr | ShValErr | ShValsErr.

(** A user callback.  Its body is user code: the model records each
    invocation and knows only whether the body panics. *)
Record callback := Callback {
  cb_shape : cbshape;
  cb_tag : nat;
  cb_panics : option panicval;
}.

(** [interface{}] data as it travels in argument vectors and replies. *)
Inductive value :=
| VNil
| VBool (b : bool)
| VInt (z : Z)
| VStr (s : string)
| VSlice (l : list value)
| VCb (c : callback).

(** [error] values are represented by their message; [None] is [nil]. *)
Definition error := option string.

(** [fmt.Sprintf("%v", r)] *)
Definition fmt_v (r : panicval) : string :=
  match r with PStr s => s | PErr e => e end.

(** What calling a registered function does. *)
Inductive ran (A : Type) := Returns (a : A) | Panics (r : panicval).
Arguments Returns {A} a.
Arguments Panics {A} r.

(** The three function kinds: [func([]interface{})],
    [func([]interface{}) interface{}],
    [func([]interface{}) []interface{}]. *)
Inductive func :=
| F0 (f : list value → ran unit)
| F1 (f : list value → ran value)
| FN (f : list value → ran (list value)).

(** The [interface{}] handed to [Register]: a function of one of the
    three kinds, or anything else. *)
Inductive iface := IFunc (f : func) | IVal (v : value).

(** ** Channels *)

(** The receiving end of a channel: nobody is waiting, a receiver is
    parked on the channel, or a parked receiver has been handed a value
    directly and has not processed it yet. *)
Inductive rxstate (A : Type) := Away | Parked | Holding (x : A).
Arguments Away {A}.
Arguments Parked {A}.
Arguments Holding {A} x.

Record chan (A : Type) := Chan {
  buf : list A;
  cap : Z;
  closed : bool;
  rx : rxstate A;
}.
Arguments Chan {A} buf cap closed rx.
Arguments buf {A} c.
Arguments cap {A} c.
Arguments closed {A} c.
Arguments rx {A} c.

Inductive sendres (A : Type) := Sent (c : chan A) | Full | SendOnClosed.
Arguments Sent {A} c.
Arguments Full {A}.
Arguments SendOnClosed {A}.

(** One attempt at [c <- x]. *)
Definition chan_send {A} (x : A) (c : chan A) : sendres A :=
  if closed c then SendOnClosed
  else match rx c with
       | Parked => Sent (Chan (buf c) (cap c) false (Holding x))
       | _ =>
         if Z.of_nat (length (buf c)) <? cap c
         then Sent (Chan (buf c ++ [x]) (cap c) false (rx c))
         else Full
       end.

(** One attempt at [<-c] by the channel's consumer.  With nothing to
    take the receiver waits; the code modelled here never receives from
    a channel after closing it, except for the [range] in
    [Server.Close], which stops at the end of the buffer. *)
Definition chan_recv {A} (c : chan A) : option (A * chan A) :=
  match rx c with
  | Holding x => Some (x, Chan (buf c) (cap c) (closed c) Away)
  | _ =>
    match buf c with
    | x :: q => Some (x, Chan q (cap c) (closed c) Away)
    | [] => None
    end
  end.

(** Values the consumer has still to process, oldest first. *)
Definition chan_pending {A} (c : chan A) : list A :=
  match rx c with Holding x => [x] | _ => [] end ++ buf c.

(** ** chanrpc data *)

Record CallInfo := mkCallInfo {
  ci_f : func;
  ci_args : list value;
  ci_chanRet : option nat;
  ci_cb : value;
}.

Record RetInfo := mkRetInfo {
  ri_ret : value;
  ri_err : error;
  ri_cb : value;
}.

Record Server := mkServer {
  functions : gmap string func;
  ChanCall : chan CallInfo;
}.

Record Client := mkClient {
  c_s : option nat;
  chanSyncRet : nat;
  ChanAsynRet : nat;
  pendingAsynCall : Z;
}.

(** An invocation of a user callback, with the arguments it received. *)
Inductive cbcall :=
| CallErr (c : callback) (e : error)
| CallValErr (c : callback) (v : value) (e : error)
| CallValsErr (c : callback) (vs : list value) (e : error).

(** A console command: one of the built-in ones, or an
    [ExternalCommand] bound to a server. *)
Inductive Command :=
| CommandHelp
| CommandCPUProf
| CommandProf
| ExternalCommand (_name _help : string) (server : nat).

(** ** Package module: the registry entries *)

(** The [Module] interface.  The three methods are user code; the model
    knows whether [OnInit] and [OnDestroy] panic, and whether [Run]
    keeps its contract (it returns once [closeSig] has yielded a value)
    or never returns. *)
Record ModuleI := mkModuleI {
  OnInit_panics : option panicval;
  OnDestroy_panics : option panicval;
  Run_returns_on_close : bool;
}.

(** The [module] struct; [wg] is the counter of the [sync.WaitGroup]. *)
Record module := mk_module {
  mi : ModuleI;
  closeSig : chan bool;
  wg : Z;
}.

(** What the module manager makes the modules do; modules are named by
    their position in [mods]. *)
Inductive event :=
| EvOnInit (i : nat)
| EvCloseSig (i : nat)
| EvRunReturned (i : nat)
| EvOnDestroy (i : nat).

(** ** The world *)

(** [servers] and [rets] are the heap: a [*Server] is an index into
    [servers], a [chan *RetInfo] an index into [rets].  [called] is the
    history of user callbacks, [logged] the lines given to [log.Error].
    [LenStackBuf] is the variable of package [conf]; [stack] is what
    [runtime.Stack] would write.  [commands] is the variable of package
    [console], [mods] the one of package [module], and [trace] the
    history of the module manager. *)
Record World := mkWorld {
  LenStackBuf : Z;
  stack : string;
  servers : list Server;
  rets : list (chan RetInfo);
  called : list cbcall;
  logged : list string;
  commands : list Command;
  mods : list module;
  trace : list event;
}.

Definition set_servers (w : World) (ss : list Server) : World :=
  mkWorld (LenStackBuf w) (stack w) ss (rets w) (called w) (logged w)
    (commands w) (mods w) (trace w).
Definition set_rets (w : World) (rs : list (chan RetInfo)) : World :=
  mkWorld (LenStackBuf w) (stack w) (servers w) rs (called w) (logged w)
    (commands w) (mods w) (trace w).
Definition set_called (w : World) (cs : list cbcall) : World :=
  mkWorld (LenStackBuf w) (stack w) (servers w) (rets w) cs (logged w)
    (commands w) (mods w) (trace w).
Definition set_logged (w : World) (ls : list string) : World :=
  mkWorld (LenStackBuf w) (stack w) (servers w) (rets w) (called w) ls
    (commands w) (mods w) (trace w).
Definition set_commands (w : World) (cs : list Command) : World :=
  mkWorld (LenStackBuf w) (stack w) (servers w) (rets w) (called w) (logged w)
    cs (mods w) (trace w).
Definition set_mods (w : World) (ms : list module) : World :=
  mkWorld (LenStackBuf w) (stack w) (servers w) (rets w) (called w) (logged w)
    (commands w) ms (trace w).
Definition set_trace (w : World) (t : list event) : World :=
  mkWorld (LenStackBuf w) (stack w) (servers w) (rets w) (called w) (logged w)
    (commands w) (mods w) t.

(** The world at program start: [conf.LenStackBuf = 4096], the three
    built-in console commands, nothing allocated. *)
Definition start (stk : string) : World :=
  mkWorld 4096 stk [] [] [] [] [CommandHelp; CommandCPUProf; CommandProf] [] [].

(** ** The monad of Go computations *)

(** [Exit] is [os.Exit], reached through [log.Fatal]. *)
Inductive result (A : Type) :=
| Ok (a : A)
| Panic (r : panicval)
| Block
| Exit.
Arguments Ok {A} a.
Arguments Panic {A} r.
Arguments Block {A}.
Arguments Exit {A}.

Definition M (A : Type) : Type := World → result A * World.

Definition retM {A} (a : A) : M A := λ w, (Ok a, w).
Definition bindM {A B} (m : M A) (k : A → M B) : M B :=
  λ w, match m w with
       | (Ok a, w') => k a w'
       | (Panic r, w') => (Panic r, w')
       | (Block, w') => (Block, w')
       | (Exit, w') => (Exit, w')
       end.
Definition panic {A} (r : panicval) : M A := λ w, (Panic r, w).
Definition block {A} : M A := λ w, (Block, w).

(** [defer func() { if r := recover(); r != nil { h r } }()] around [m]:
    when [m] panics, [h] runs and its value is the function's result. *)
Definition recovering {A} (m : M A) (h : panicval → M A) : M A :=
  λ w, match m w with
       | (Panic r, w') => h r w'
       | other => other
       end.

Notation "x <- m ;; k" := (bindM m (λ x, k))
  (at level 100, m at next level, right associativity).
Notation "m ;; k" := (bindM m (λ _, k))
  (at level 100, right associativity).

Definition get {A} (proj : World → A) : M A := λ w, (Ok (proj w), w).
Definition log_Error (line : string) : M unit :=
  λ w, (Ok tt, set_logged w (logged w ++ [line])).

Definition nil_deref : panicval :=
  PErr "invalid memory address or nil pointer dereference".
Definition send_on_closed : panicval := PErr "send on closed channel".

(** [make(chan T, l)] *)
Definition make_chan {A} (l : Z) : M (chan A) :=
  if l <? 0 then panic (PErr "makechan: size out of range")
  else retM (Chan [] l false Away).

(** The line logged by the recover blocks:
    [fmt.Sprintf("%v: %s", r, buf[:l])] when [conf.LenStackBuf > 0],
    [fmt.Sprintf("%v", r)] otherwise. *)
Definition panic_line (r : panicval) (w : World) : string :=
  if 0 <? LenStackBuf w
  then fmt_v r ++ ": " ++ String.substring 0 (Z.to_nat (LenStackBuf w)) (stack w)
  else fmt_v r.

(** * Package chanrpc *)

(** ** Pointers *)

(** [*Server] dereference; a nil pointer panics. *)
Definition load_server (k : nat) : M Server :=
  λ w, match servers w !! k with
       | Some s => (Ok s, w)
       | None => (Panic nil_deref, w)
       end.

Definition store_server (k : nat) (s : Server) : M unit :=
  λ w, (Ok tt, set_servers w (<[k:=s]> (servers w))).

Definition store_ret (ch : nat) (c : chan RetInfo) : M unit :=
  λ w, (Ok tt, set_rets w (<[ch:=c]> (rets w))).

(** [ch <- ri] on a reply channel.  A send that finds no room parks the
    sender; so does a send on a channel that does not exist (a nil
    channel). *)
Definition send_ret (ch : nat) (ri : RetInfo) : M unit :=
  λ w, match rets w !! ch with
       | None => (Block, w)
       | Some c =>
         match chan_send ri c with
         | Sent c' => store_ret ch c' w
         | Full => (Block, w)
         | SendOnClosed => (Panic send_on_closed, w)
         end
       end.

(** [<-ch] on a reply channel. *)
Definition recv_ret (ch : nat) : M RetInfo :=
  λ w, match rets w !! ch with
       | None => (Block, w)
       | Some c =>
         match chan_recv c with
         | Some (ri, c') => (Ok ri, set_rets w (<[ch:=c']> (rets w)))
         | None => (Block, w)
         end
       end.

(** [cap(ch)] *)
Definition cap_ret (ch : nat) (w : World) : Z :=
  match rets w !! ch with Some c => cap c | None => 0 end.

(** [s.ChanCall <- ci], one attempt: [true] when the value was taken,
    [false] when there is no room. *)
Definition send_call (k : nat) (ci : CallInfo) : M bool :=
  s <- load_server k ;;
  match chan_send ci (ChanCall s) with
  | Sent c' => store_server k (mkServer (functions s) c') ;; retM true
  | Full => retM false
  | SendOnClosed => panic send_on_closed
  end.

(** [err = r.(error)] in a recover block. *)
Definition as_error (r : panicval) : M error :=
  match r with
  | PErr e => retM (Some e)
  | PStr _ => panic (PErr "interface conversion: interface {} is string, not error")
  end.

(** ** Server *)

Definition NewServer (l : Z) : M nat :=
  c <- make_chan l ;;
  λ w, (Ok (length (servers w)), set_servers w (servers w ++ [mkServer ∅ c])).

Definition assert (i : value) : M (list value) :=
  match i with
  | VNil => retM []
  | VSlice l => retM l
  | _ => panic (PErr "interface conversion: interface {} is not []interface {}")
  end.

Definition Server_Register (k : nat) (id : string) (f : iface) : M unit :=
  match f with
  | IFunc fn =>
    s <- load_server k ;;
    match functions s !! id with
    | Some _ => panic (PStr ("function id " ++ id ++ ": already registered"))
    | None => store_server k (mkServer (<[id:=fn]> (functions s)) (ChanCall s))
    end
  | IVal _ =>
    panic (PStr ("function id " ++ id ++ ": definition of function is invalid"))
  end.

(** [ri.cb = ci.cb; ci.chanRet <- ri] under a recover block. *)
Definition Server_ret (ci : CallInfo) (ri : RetInfo) : M error :=
  match ci_chanRet ci with
  | None => retM None
  | Some ch =>
    recovering
      (send_ret ch (mkRetInfo (ri_ret ri) (ri_err ri) (ci_cb ci)) ;; retM None)
      as_error
  end.

Definition Server_exec (ci : CallInfo) : M error :=
  recovering
    (match ci_f ci with
     | F0 f =>
       match f (ci_args ci) with
       | Returns _ => Server_ret ci (mkRetInfo VNil None VNil)
       | Panics r => panic r
       end
     | F1 f =>
       match f (ci_args ci) with
       | Returns v => Server_ret ci (mkRetInfo v None VNil)
       | Panics r => panic r
       end
     | FN f =>
       match f (ci_args ci) with
       | Returns vs => Server_ret ci (mkRetInfo (VSlice vs) None VNil)
       | Panics r => panic r
       end
     end)
    (λ r,
       line <- get (panic_line r) ;;
       Server_ret ci (mkRetInfo VNil (Some (fmt_v r)) VNil) ;;
       retM (Some line)).

Definition Server_Exec (ci : CallInfo) : M unit :=
  err <- Server_exec ci ;;
  match err with
  | Some e => log_Error e
  | None => retM tt
  end.

Definition Server_Go (k : nat) (id : string) (args : list value) : M unit :=
  s <- load_server k ;;
  match functions s !! id with
  | None => retM tt
  | Some f =>
    recovering
      (sent <- send_call k (mkCallInfo f args None VNil) ;;
       if sent : bool then retM tt else block)
      (λ _, retM tt)
  end.

Definition server_closed : RetInfo :=
  mkRetInfo VNil (Some "chanrpc server closed") VNil.

(** [for ci := range s.ChanCall { s.ret(ci, ...) }] over the values
    still buffered in the closed channel. *)
Fixpoint Server_Close_range (k : nat) (q : list CallInfo) : M unit :=
  match q with
  | [] => retM tt
  | ci :: q' =>
    s <- load_server k ;;
    store_server k
      (mkServer (functions s)
         (Chan q' (cap (ChanCall s)) (closed (ChanCall s)) (rx (ChanCall s)))) ;;
    Server_ret ci server_closed ;;
    Server_Close_range k q'
  end.

Definition Server_Close (k : nat) : M unit :=
  s <- load_server k ;;
  if closed (ChanCall s) then panic (PErr "close of closed channel")
  else
    store_server k
      (mkServer (functions s)
         (Chan (buf (ChanCall s)) (cap (ChanCall s)) true (rx (ChanCall s)))) ;;
    Server_Close_range k (buf (ChanCall s)).

(** ** Client *)

Definition NewClient (l : Z) : M Client :=
  sync <- make_chan 1 ;;
  asyn <- make_chan l ;;
  λ w, let n := length (rets w) in
       (Ok (mkClient None n (S n) 0), set_rets w (rets w ++ [sync; asyn])).

Definition Client_Attach (c : Client) (s : option nat) : Client :=
  mkClient s (chanSyncRet c) (ChanAsynRet c) (pendingAsynCall c).

Definition Server_Open (k : nat) (l : Z) : M Client :=
  c <- NewClient l ;;
  retM (Client_Attach c (Some k)).

Definition Client_call (c : Client) (ci : CallInfo) (blocking : bool) : M error :=
  recovering
    (match c_s c with
     | None => panic nil_deref
     | Some k =>
       sent <- send_call k ci ;;
       if sent : bool then retM None
       else if blocking then block
       else retM (Some "chanrpc channel full")
     end)
    as_error.

Definition is_kind (n : Z) (f : func) : M bool :=
  if n =? 0 then retM (match f with F0 _ => true | _ => false end)
  else if n =? 1 then retM (match f with F1 _ => true | _ => false end)
  else if n =? 2 then retM (match f with FN _ => true | _ => false end)
  else panic (PStr "bug").

(** [(f, err)]: the function when [err] is nil, the error otherwise. *)
Definition Client_f (c : Client) (id : string) (n : Z) : M (func + string) :=
  match c_s c with
  | None => retM (inr "server not attached")
  | Some k =>
    s <- load_server k ;;
    match functions s !! id with
    | None => retM (inr ("function id " ++ id ++ ": function not registered")%string)
    | Some f =>
      ok <- is_kind n f ;;
      if ok : bool then retM (inl f)
      else retM (inr ("function id " ++ id ++ ": return type mismatch")%string)
    end
  end.

(** The first half of [Call0], [Call1] and [CallN]: look the function
    up and post the call with the sync reply channel.  [inr err] is the
    early [return err]. *)
Definition Client_post (c : Client) (id : string) (args : list value) (n : Z)
  : M (unit + string) :=
  r <- Client_f c id n ;;
  match r with
  | inr e => retM (inr e)
  | inl f =>
    err <- Client_call c (mkCallInfo f args (Some (chanSyncRet c)) VNil) true ;;
    match err with
    | Some e => retM (inr e)
    | None => retM (inl tt)
    end
  end.

(** The second half: [ri := <-c.chanSyncRet] and the return. *)
Definition Client_await0 (c : Client) : M error :=
  ri <- recv_ret (chanSyncRet c) ;;
  retM (ri_err ri).

Definition Client_await1 (c : Client) : M (value * error) :=
  ri <- recv_ret (chanSyncRet c) ;;
  retM (ri_ret ri, ri_err ri).

Definition Client_awaitN (c : Client) : M (list value * error) :=
  ri <- recv_ret (chanSyncRet c) ;;
  vs <- assert (ri_ret ri) ;;
  retM (vs, ri_err ri).

Definition Client_Call0 (c : Client) (id : string) (args : list value) : M error :=
  p <- Client_post c id args 0 ;;
  match p with
  | inr e => retM (Some e)
  | inl _ => Client_await0 c
  end.

Definition Client_Call1 (c : Client) (id : string) (args : list value)
  : M (value * error) :=
  p <- Client_post c id args 1 ;;
  match p with
  | inr e => retM (VNil, Some e)
  | inl _ => Client_await1 c
  end.

Definition Client_CallN (c : Client) (id : string) (args : list value)
  : M (list value * error) :=
  p <- Client_post c id args 2 ;;
  match p with
  | inr e => retM ([], Some e)
  | inl _ => Client_awaitN c
  end.

Definition Server_Call0 (k : nat) (id : string) (args : list value) : M error :=
  c <- Server_Open k 0 ;;
  Client_Call0 c id args.

Definition Server_Call1 (k : nat) (id : string) (args : list value)
  : M (value * error) :=
  c <- Server_Open k 0 ;;
  Client_Call1 c id args.

Definition Server_CallN (k : nat) (id : string) (args : list value)
  : M (list value * error) :=
  c <- Server_Open k 0 ;;
  Client_CallN c id args.

Definition Client_asynCall (c : Client) (id : string) (args : list value)
    (cb : value) (n : Z) : M unit :=
  r <- Client_f c id n ;;
  match r with
  | inr e => send_ret (ChanAsynRet c) (mkRetInfo VNil (Some e) cb)
  | inl f =>
    err <- Client_call c (mkCallInfo f args (Some (ChanAsynRet c)) cb) false ;;
    match err with
    | Some e => send_ret (ChanAsynRet c) (mkRetInfo VNil (Some e) cb)
    | None => retM tt
    end
  end.

(** Calling the user's function value: the call is recorded, then the
    body may panic. *)
Definition invoke (k : callback) (ev : cbcall) : M unit :=
  λ w, let w' := set_called w (called w ++ [ev]) in
       match cb_panics k with
       | Some r => (Panic r, w')
       | None => (Ok tt, w')
       end.

Definition execCb (ri : RetInfo) : M unit :=
  recovering
    (match ri_cb ri with
     | VCb k =>
       match cb_shape k with
       | ShErr => invoke k (CallErr k (ri_err ri))
       | ShValErr => invoke k (CallValErr k (ri_ret ri) (ri_err ri))
       | ShValsErr =>
         vs <- assert (ri_ret ri) ;;
         invoke k (CallValsErr k vs (ri_err ri))
       end
     | _ => panic (PStr "bug")
     end)
    (λ r, line <- get (panic_line r) ;; log_Error line).

Definition set_pending (c : Client) (n : Z) : Client :=
  mkClient (c_s c) (chanSyncRet c) (ChanAsynRet c) n.

Definition Client_AsynCall (c : Client) (id : string) (_args : list value)
  : M Client :=
  match last _args with
  | None => panic (PStr "callback function not found")
  | Some cb =>
    let args := removelast _args in
    n <- match cb with
         | VCb k =>
           retM (match cb_shape k with ShErr => 0 | ShValErr => 1 | ShValsErr => 2 end)
         | _ => panic (PStr "definition of callback function is invalid")
         end ;;
    capacity <- get (cap_ret (ChanAsynRet c)) ;;
    if capacity <=? pendingAsynCall c
    then execCb (mkRetInfo VNil (Some "too many calls") cb) ;; retM c
    else Client_asynCall c id args cb n ;;
         retM (set_pending c (pendingAsynCall c + 1))
  end.

Definition Client_Cb (c : Client) (ri : RetInfo) : M Client :=
  let c' := set_pending c (pendingAsynCall c - 1) in
  execCb ri ;;
  retM c'.

(** [for c.pendingAsynCall > 0 { c.Cb(<-c.ChanAsynRet) }]; every turn
    lowers the counter, so its value bounds the number of turns. *)
Fixpoint Client_Close_loop (turns : nat) (c : Client) : M Client :=
  match turns with
  | O => retM c
  | S n =>
    if 0 <? pendingAsynCall c
    then ri <- recv_ret (ChanAsynRet c) ;;
         c' <- Client_Cb c ri ;;
         Client_Close_loop n c'
    else retM c
  end.

Definition Client_Close (c : Client) : M Client :=
  Client_Close_loop (Z.to_nat (pendingAsynCall c)) c.

Definition Client_Idle (c : Client) : bool := pendingAsynCall c =? 0.

(** * Package console *)

Definition Command_name (c : Command) : string :=
  match c with
  | CommandHelp => "help"
  | CommandCPUProf => "cpuprof"
  | CommandProf => "prof"
  | ExternalCommand n _ _ => n
  end.

(** [log.Fatal] is not among the sources; it ends the process. *)
Definition log_Fatal {A} : M A := λ w, (Exit, w).

Definition console_Register (name help : string) (f : iface) (server : nat)
  : M unit :=
  cs <- get commands ;;
  if existsb (λ c, bool_decide (Command_name c = name)) cs
  then log_Fatal
  else
    Server_Register server name f ;;
    λ w, (Ok tt, set_commands w (commands w ++ [ExternalCommand name help server])).

(** * Package module: the module manager *)

Definition load_mod (i : nat) : M module :=
  λ w, match mods w !! i with
       | Some m => (Ok m, w)
       | None => (Panic (PErr "index out of range"), w)
       end.

Definition store_mod (i : nat) (m : module) : M unit :=
  λ w, (Ok tt, set_mods w (<[i:=m]> (mods w))).

Definition emit (e : event) : M unit :=
  λ w, (Ok tt, set_trace w (trace w ++ [e])).

Definition module_Register (x : ModuleI) : M unit :=
  c <- make_chan 1 ;;
  λ w, (Ok tt, set_mods w (mods w ++ [mk_module x c 0])).

(** [for i := 0; i < len(mods); i++ { mods[i].mi.OnInit() }], from
    index [i] with [n] modules to go. *)
Fixpoint Init_OnInit (i n : nat) : M unit :=
  match n with
  | O => retM tt
  | S n' =>
    m <- load_mod i ;;
    emit (EvOnInit i) ;;
    match OnInit_panics (mi m) with
    | Some r => panic r
    | None => Init_OnInit (S i) n'
    end
  end.

(** [m.wg.Add(1); go run(m)]: the goroutine is alive from here on, and
    the counter says so. *)
Fixpoint Init_run (i n : nat) : M unit :=
  match n with
  | O => retM tt
  | S n' =>
    m <- load_mod i ;;
    store_mod i (mk_module (mi m) (closeSig m) (wg m + 1)) ;;
    Init_run (S i) n'
  end.

Definition module_Init : M unit :=
  ms <- get mods ;;
  Init_OnInit 0 (length ms) ;;
  Init_run 0 (length ms).

(** [m.wg.Wait()].  While the counter is positive the goroutine
    [run(m)] is alive; [Wait] returns after it has finished.  A [Run]
    that keeps its contract takes the close signal and returns, then
    [run] calls [m.wg.Done()]. *)
Definition wg_Wait (i : nat) : M unit :=
  m <- load_mod i ;;
  if wg m =? 0 then retM tt
  else if Run_returns_on_close (mi m) then
    match chan_recv (closeSig m) with
    | Some (_, c') =>
      store_mod i (mk_module (mi m) c' (wg m - 1)) ;;
      emit (EvRunReturned i) ;;
      if wg m - 1 =? 0 then retM tt else block
    | None => block
    end
  else block.

(** [m.closeSig <- true] *)
Definition send_closeSig (i : nat) : M unit :=
  m <- load_mod i ;;
  match chan_send true (closeSig m) with
  | Sent c' => store_mod i (mk_module (mi m) c' (wg m)) ;; emit (EvCloseSig i)
  | Full => block
  | SendOnClosed => panic send_on_closed
  end.

Definition module_destroy (i : nat) : M unit :=
  recovering
    (m <- load_mod i ;;
     emit (EvOnDestroy i) ;;
     match OnDestroy_panics (mi m) with
     | Some r => panic r
     | None => retM tt
     end)
    (λ r, line <- get (panic_line r) ;; log_Error line).

(** [for i := n - 1; i >= 0; i-- { ... }] *)
Fixpoint Destroy_from (n : nat) : M unit :=
  match n with
  | O => retM tt
  | S i =>
    send_closeSig i ;;
    wg_Wait i ;;
    module_destroy i ;;
    Destroy_from i
  end.

Definition module_Destroy : M unit :=
  ms <- get mods ;;
  Destroy_from (length ms).

(** * Package module: the Skeleton *)

(** The two cases of the [select] in [Skeleton.Run] that serve chanrpc:
    [case ci := <-s.server.ChanCall: s.server.Exec(ci)] and
    [case ri := <-s.client.ChanAsynRet: s.client.Cb(ri)].  A case whose
    channel has nothing to offer is not ready. *)
Definition Run_case_ChanCall (k : nat) : M unit :=
  s <- load_server k ;;
  match chan_recv (ChanCall s) with
  | Some (ci, c') =>
    store_server k (mkServer (functions s) c') ;;
    Server_Exec ci
  | None => block
  end.

Definition Run_case_ChanAsynRet (c : Client) : M Client :=
  ri <- recv_ret (ChanAsynRet c) ;;
  Client_Cb c ri.

(** The loop is back at its [select] and finds no case ready: it parks
    on the call channel. *)
Definition Run_select_idle (k : nat) : M unit :=
  s <- load_server k ;;
  match chan_pending (ChanCall s) with
  | [] =>
    store_server k
      (mkServer (functions s)
         (Chan (buf (ChanCall s)) (cap (ChanCall s)) (closed (ChanCall s)) Parked))
  | _ => retM tt
  end.

(** A nil [*Server] behaves like an index outside the heap: every
    dereference panics. *)
Definition at_server {A} (p : option nat) (m : nat → M A) : M A :=
  λ w, match p with
       | Some k => m k w
       | None => m (length (servers w)) w
       end.

Section Skeleton.

(** Packages [g] and [timer] are not among the sources.  Their types
    and the operations the Skeleton calls are parameters. *)
Variables Go Dispatcher LinearContext Timer Cron Duration CronExpr Thunk : Type.
Variable g_New : Z → Go.
Variable g_Go : Go → Thunk → Thunk → Go.
Variable g_NewLinearContext : Go → Go * LinearContext.
Variable timer_NewDispatcher : Z → Dispatcher.
Variable timer_AfterFunc : Dispatcher → Duration → Thunk → Dispatcher * Timer.
Variable timer_CronFunc : Dispatcher → CronExpr → Thunk → Dispatcher * Cron.

Record Skeleton := mkSkeleton {
  GoLen : Z;
  TimerDispatcherLen : Z;
  AsynCallLen : Z;
  ChanRPCServer : option nat;
  sk_g : option Go;
  dispatcher : option Dispatcher;
  client : option Client;
  server : option nat;
  commandServer : option nat;
}.

Definition Skeleton_Init (s : Skeleton) : M Skeleton :=
  let goLen := if GoLen s <=? 0 then 0 else GoLen s in
  let timerLen := if TimerDispatcherLen s <=? 0 then 0 else TimerDispatcherLen s in
  let asynLen := if AsynCallLen s <=? 0 then 0 else AsynCallLen s in
  c <- NewClient asynLen ;;
  srv <- match ChanRPCServer s with
         | Some k => retM k
         | None => NewServer 0
         end ;;
  cmd <- NewServer 0 ;;
  retM (mkSkeleton goLen timerLen asynLen (ChanRPCServer s)
          (Some (g_New goLen)) (Some (timer_NewDispatcher timerLen))
          (Some c) (Some srv) (Some cmd)).

Definition set_dispatcher (s : Skeleton) (d : Dispatcher) : Skeleton :=
  mkSkeleton (GoLen s) (TimerDispatcherLen s) (AsynCallLen s) (ChanRPCServer s)
    (sk_g s) (Some d) (client s) (server s) (commandServer s).
Definition set_g (s : Skeleton) (p : Go) : Skeleton :=
  mkSkeleton (GoLen s) (TimerDispatcherLen s) (AsynCallLen s) (ChanRPCServer s)
    (Some p) (dispatcher s) (client s) (server s) (commandServer s).
Definition set_client (s : Skeleton) (c : Client) : Skeleton :=
  mkSkeleton (GoLen s) (TimerDispatcherLen s) (AsynCallLen s) (ChanRPCServer s)
    (sk_g s) (dispatcher s) (Some c) (server s) (commandServer s).

Definition Skeleton_AfterFunc (s : Skeleton) (d : Duration) (cb : Thunk)
  : M (Skeleton * Timer) :=
  if TimerDispatcherLen s =? 0 then panic (PStr "invalid TimerDispatcherLen")
  else match dispatcher s with
       | None => panic nil_deref
       | Some disp =>
         let '(disp', t) := timer_AfterFunc disp d cb in
         retM (set_dispatcher s disp', t)
       end.

Definition Skeleton_CronFunc (s : Skeleton) (e : CronExpr) (cb : Thunk)
  : M (Skeleton * Cron) :=
  if TimerDispatcherLen s =? 0 then panic (PStr "invalid TimerDispatcherLen")
  else match dispatcher s with
       | None => panic nil_deref
       | Some disp =>
         let '(disp', c) := timer_CronFunc disp e cb in
         retM (set_dispatcher s disp', c)
       end.

Definition Skeleton_Go (s : Skeleton) (f cb : Thunk) : M Skeleton :=
  if GoLen s =? 0 then panic (PStr "invalid GoLen")
  else match sk_g s with
       | None => panic nil_deref
       | Some p => retM (set_g s (g_Go p f cb))
       end.

Definition Skeleton_NewLinearContext (s : Skeleton)
  : M (Skeleton * LinearContext) :=
  if GoLen s =? 0 then panic (PStr "invalid GoLen")
  else match sk_g s with
       | None => panic nil_deref
       | Some p =>
         let '(p', lc) := g_NewLinearContext p in
         retM (set_g s p', lc)
       end.

(** [s.client.Attach(server); s.client.AsynCall(id, args...)].  The
    Skeleton is passed by value: when [AsynCall] panics the caller keeps
    the Skeleton it had. *)
Definition Skeleton_AsynCall (s : Skeleton) (srv : option nat) (id : string)
    (args : list value) : M Skeleton :=
  if AsynCallLen s =? 0 then panic (PStr "invalid AsynCallLen")
  else match client s with
       | None => panic nil_deref
       | Some c =>
         c' <- Client_AsynCall (Client_Attach c srv) id args ;;
         retM (set_client s c')
       end.

Definition Skeleton_RegisterChanRPC (s : Skeleton) (id : string) (f : iface)
  : M unit :=
  match ChanRPCServer s with
  | None => panic (PStr "invalid ChanRPCServer")
  | Some _ => at_server (server s) (λ k, Server_Register k id f)
  end.

Definition Skeleton_RegisterCommand (s : Skeleton) (name help : string)
    (f : iface) : M unit :=
  at_server (commandServer s) (λ k, console_Register name help f k).

End Skeleton.

(** * Vocabulary of the properties *)

(** Besides the notions the statements need, this part holds the small
    concrete worlds on which the statements are tried. *)

(** A function of kind K1, and a world with one server that has it
    registered.  The call queue of the server is unbuffered and its
    loop is not waiting on it. *)
Definition echo : func := F1 (λ args, Returns (VSlice args)).
Definition one_server : World :=
  set_servers (start "") [mkServer (<["echo":=echo]> ∅) (Chan [] 0 false Away)].

Definition is_callback (v : value) : bool :=
  match v with VCb _ => true | _ => false end.

(** A world with one server that has a function of kind K0. *)
Definition notify_server : World :=
  set_servers (start "")
    [mkServer (<["notify":=F0 (λ _, Returns tt)]> ∅) (Chan [] 0 false Away)].

(** A client attached to server 0, nothing outstanding. *)
Definition a_client : Client := mkClient (Some 0%nat) 0 1 0.

(** What a callback receives when its call is rejected. *)
Definition rejected (k : callback) : cbcall :=
  match cb_shape k with
  | ShErr => CallErr k (Some "too many calls")
  | ShValErr => CallValErr k VNil (Some "too many calls")
  | ShValsErr => CallValsErr k [] (Some "too many calls")
  end.

(** A client whose async reply queue has capacity 1 and whose counter
    is 1 already. *)
Definition full_client_world : World :=
  set_rets one_server [Chan [] 1 false Away; Chan [] 1 false Away].
Definition full_client : Client := mkClient (Some 0%nat) 0 1 1.
Definition on_error : callback := Callback ShErr 7 None.

(** The number [Client.f] expects for a function kind. *)
Definition kind_of (f : func) : Z :=
  match f with F0 _ => 0 | F1 _ => 1 | FN _ => 2 end.

(** [fmt.Errorf("function id %v: return type mismatch", id)] *)
Definition mismatch (id : string) : string :=
  "function id " ++ id ++ ": return type mismatch".

(** The channels [NewClient 0] allocates. *)
Definition transient_chans : list (chan RetInfo) :=
  [Chan [] 1 false Away; Chan [] 0 false Away].

Arguments mkSkeleton {Go Dispatcher}.
Arguments GoLen {Go Dispatcher}.
Arguments TimerDispatcherLen {Go Dispatcher}.
Arguments AsynCallLen {Go Dispatcher}.
Arguments ChanRPCServer {Go Dispatcher}.
Arguments commandServer {Go Dispatcher}.
Arguments Skeleton_Init {Go Dispatcher}.
Arguments Skeleton_AfterFunc {Go Dispatcher Timer Duration Thunk}.
Arguments Skeleton_CronFunc {Go Dispatcher Cron CronExpr Thunk}.
Arguments Skeleton_Go {Go Dispatcher Thunk}.
Arguments Skeleton_NewLinearContext {Go Dispatcher LinearContext}.
Arguments Skeleton_AsynCall {Go Dispatcher}.
Arguments Skeleton_RegisterChanRPC {Go Dispatcher}.
Arguments Skeleton_RegisterCommand {Go Dispatcher}.

(** A Skeleton with every facility switched off, before [Init]. *)
Definition bare : Skeleton unit unit :=
  mkSkeleton 0 0 0 None None None None None None.

(** [module.Register(mods[i])] for every module, as [leaf.Run] does. *)
Fixpoint Register_all (xs : list ModuleI) : M unit :=
  match xs with
  | [] => retM tt
  | x :: xs' => module_Register x ;; Register_all xs'
  end.

(** A module whose goroutine [run(m)] is alive and waits for the close
    signal; a module whose [run(m)] is not alive (not started yet, or
    returned) with an empty signal channel; and the latter with a close
    signal left in the channel. *)
Definition running (x : ModuleI) : module := mk_module x (Chan [] 1 false Away) 1.
Definition stopped (x : ModuleI) : module := mk_module x (Chan [] 1 false Away) 0.
Definition signalled (x : ModuleI) : module :=
  mk_module x (Chan [true] 1 false Away) 0.

(** What [Destroy] makes module [i] do when its [Run] is still going,
    and when it is not. *)
Definition teardown (i : nat) : list event :=
  [EvCloseSig i; EvRunReturned i; EvOnDestroy i].
Definition teardown_again (i : nat) : list event :=
  [EvCloseSig i; EvOnDestroy i].

(** The line [destroy] logs for a module. *)
Definition destroy_line (w : World) (x : ModuleI) : list string :=
  match OnDestroy_panics x with
  | Some r => [panic_line r w]
  | None => []
  end.

(** A module that behaves, and one whose [OnDestroy] panics. *)
Definition quiet : ModuleI := mkModuleI None None true.
Definition clumsy : ModuleI := mkModuleI None (Some (PStr "oops")) true.

(** A channel that is open and takes [n] more values without parking
    the sender. *)
Definition room_for {A} (n : nat) (c : chan A) : bool :=
  negb (closed c) &&
  match rx c with
  | Parked =>
    match buf c with
    | [] => Z.of_nat n <=? cap c + 1
    | _ => false
    end
  | _ => Z.of_nat (length (buf c)) + Z.of_nat n <=? cap c
  end.

(** The panic of the function of a call, if it panics. *)
Definition handler_panic (ci : CallInfo) : option panicval :=
  match ci_f ci with
  | F0 f => match f (ci_args ci) with Panics r => Some r | Returns _ => None end
  | F1 f => match f (ci_args ci) with Panics r => Some r | Returns _ => None end
  | FN f => match f (ci_args ci) with Panics r => Some r | Returns _ => None end
  end.

(** The reply a call is owed when it is executed: the value of its
    function, or its panic as an error; with the callback of the call. *)
Definition reply_of (ci : CallInfo) : RetInfo :=
  match ci_f ci with
  | F0 f =>
    match f (ci_args ci) with
    | Returns _ => mkRetInfo VNil None (ci_cb ci)
    | Panics r => mkRetInfo VNil (Some (fmt_v r)) (ci_cb ci)
    end
  | F1 f =>
    match f (ci_args ci) with
    | Returns v => mkRetInfo v None (ci_cb ci)
    | Panics r => mkRetInfo VNil (Some (fmt_v r)) (ci_cb ci)
    end
  | FN f =>
    match f (ci_args ci) with
    | Returns vs => mkRetInfo (VSlice vs) None (ci_cb ci)
    | Panics r => mkRetInfo VNil (Some (fmt_v r)) (ci_cb ci)
    end
  end.

(** The reply a call is owed when its server is closed. *)
Definition closed_reply (ci : CallInfo) : RetInfo :=
  mkRetInfo VNil (Some "chanrpc server closed") (ci_cb ci).

(** The error [exec] returns (and [Exec] logs). *)
Definition exec_err (ci : CallInfo) (w : World) : error :=
  match handler_panic ci with
  | Some r => Some (panic_line r w)
  | None => None
  end.

(** The calls of a queue that are to be answered on channel [ch]. *)
Definition owed (ch : nat) (q : list CallInfo) : list CallInfo :=
  filter (λ ci, ci_chanRet ci = Some ch) q.

(** A server with its call buffer emptied, and the same once closed. *)
Definition drained (s : Server) : Server :=
  mkServer (functions s)
    (Chan [] (cap (ChanCall s)) (closed (ChanCall s)) (rx (ChanCall s))).

Definition shut (s : Server) : Server :=
  mkServer (functions s)
    (Chan [] (cap (ChanCall s)) true (rx (ChanCall s))).

(** A server with two calls queued, one with a reply queue and one
    without. *)
Definition reply_slot : chan RetInfo := Chan [] 1 false Away.
Definition echo_call : CallInfo := mkCallInfo echo [VInt 4] (Some 0%nat) VNil.
Definition notify : CallInfo :=
  mkCallInfo (F0 (λ _, Panics (PStr "boom"))) [] None VNil.
Definition busy_server : Server :=
  mkServer (<["echo":=echo]> ∅) (Chan [echo_call; notify] 2 false Away).
Definition busy_world : World :=
  set_rets (set_servers (start "") [busy_server]) [reply_slot].

(** One turn of the loop of [Skeleton.Run] on the call channel: the
    call is received and executed, then the loop is back at its
    [select]. *)
Definition Run_turn (k : nat) : M unit :=
  Run_case_ChanCall k ;; Run_select_idle k.

(** A synchronous call made while the loop of server [k] runs: the
    caller posts its call and parks on its reply slot, the loop takes a
    turn, the caller resumes at the receive. *)
Definition sync {A} (k : nat) (call resume : M A) : M A :=
  λ w, match call w with
       | (Block, w1) =>
         match Run_turn k w1 with
         | (Ok _, w2) => resume w2
         | (Panic r, w2) => (Panic r, w2)
         | (Block, w2) => (Block, w2)
         | (Exit, w2) => (Exit, w2)
         end
       | done => done
       end.

(** The client [Server.Open(0)] makes in world [w]. *)
Definition transient (k : nat) (w : World) : Client :=
  mkClient (Some k) (length (rets w)) (S (length (rets w))) 0.

(** A call channel that is open, holds no call, and takes one. *)
Definition idle (c : chan CallInfo) : bool :=
  room_for 1 c && match chan_pending c with [] => true | _ => false end.

(** The server once its loop is parked on the empty call channel. *)
Definition rested (s : Server) : Server :=
  mkServer (functions s) (Chan [] (cap (ChanCall s)) false Parked).

(** The lines [Exec] logs for a call. *)
Definition exec_lines (ci : CallInfo) (w : World) : list string :=
  match handler_panic ci with
  | Some r => [panic_line r w]
  | None => []
  end.

(** The world after a synchronous call [ci] on the idle server [k]. *)
Definition after_sync (k : nat) (s : Server) (ci : CallInfo) (w : World) : World :=
  set_logged
    (set_rets (set_servers w (<[k:=rested s]> (servers w)))
       (rets w ++ transient_chans))
    (logged w ++ exec_lines ci w).

(** The panic of function [f] on [args], if it panics. *)
Definition call_panic (f : func) (args : list value) : option panicval :=
  handler_panic (mkCallInfo f args None VNil).

(** Scenario 1 of the specification: a K1 function that panics on 0
    and doubles anything else, on a server whose loop is waiting. *)
Definition div_body (args : list value) : ran value :=
  match args with
  | [VInt 0] => Panics (PErr "runtime error: integer divide by zero")
  | [VInt x] => Returns (VInt (x * 2))
  | _ => Returns VNil
  end.
Definition div : func := F1 div_body.
Definition div_world : World :=
  set_servers (start "") [mkServer (<["div":=div]> ∅) (Chan [] 0 false Parked)].

(** What happens around an async client: the client attaches, calls,
    or takes a reply off its queue and runs [Cb]; the loop of a server
    executes a call or parks; a server is closed; somebody else posts a
    fire-and-forget call. *)
Inductive op :=
| OpAttach (srv : option nat)
| OpAsynCall (id : string) (_args : list value)
| OpCb
| OpExec (k : nat)
| OpIdle (k : nat)
| OpClose (k : nat)
| OpGo (k : nat) (id : string) (args : list value).

(** Calls waiting in server [s] whose reply goes to channel [a], and
    their number over all servers. *)
Definition waiting (a : nat) (s : Server) : nat :=
  length (owed a (chan_pending (ChanCall s))).
Definition inflight (a : nat) (w : World) : nat :=
  sum_list (map (waiting a) (servers w)).

(** Replies waiting in channel [a]. *)
Definition buffered (a : nat) (w : World) : nat :=
  match rets w !! a with
  | Some c => length (chan_pending c)
  | None => 0
  end.

(** The client, the world, and three tallies: [admitted] counts the
    [AsynCall]s that returned without running the callback on the spot,
    [enqueued] those of them after which one more call of the client
    waits in a server, [acked] the runs of [Cb]. *)
Record sys := mkSys {
  sys_client : Client;
  sys_world : World;
  admitted : Z;
  enqueued : Z;
  acked : Z;
}.

(** A panic goes to the caller and a parked operation has not happened
    yet; either way the client object is as before. *)
Definition step (o : op) (σ : sys) : sys :=
  let c := sys_client σ in
  let w := sys_world σ in
  match o with
  | OpAttach srv =>
    mkSys (Client_Attach c srv) w (admitted σ) (enqueued σ) (acked σ)
  | OpAsynCall id _args =>
    match Client_AsynCall c id _args w with
    | (Ok c', w') =>
      if bool_decide (length (called w') = length (called w)) then
        mkSys c' w' (admitted σ + 1)
          (if bool_decide (inflight (ChanAsynRet c) w'
                           = S (inflight (ChanAsynRet c) w))
           then enqueued σ + 1 else enqueued σ)
          (acked σ)
      else mkSys c' w' (admitted σ) (enqueued σ) (acked σ)
    | (_, w') => mkSys c w' (admitted σ) (enqueued σ) (acked σ)
    end
  | OpCb =>
    match Run_case_ChanAsynRet c w with
    | (Ok c', w') => mkSys c' w' (admitted σ) (enqueued σ) (acked σ + 1)
    | (_, w') => mkSys c w' (admitted σ) (enqueued σ) (acked σ)
    end
  | OpExec k =>
    mkSys c (Run_case_ChanCall k w).2 (admitted σ) (enqueued σ) (acked σ)
  | OpIdle k =>
    mkSys c (Run_select_idle k w).2 (admitted σ) (enqueued σ) (acked σ)
  | OpClose k =>
    mkSys c (Server_Close k w).2 (admitted σ) (enqueued σ) (acked σ)
  | OpGo k id args =>
    mkSys c (Server_Go k id args w).2 (admitted σ) (enqueued σ) (acked σ)
  end.

Definition run (ops : list op) (σ : sys) : sys :=
  fold_left (λ σ o, step o σ) ops σ.

(** Every queued call is to be answered on an allocated channel. *)
Definition wf (w : World) : Prop :=
  ∀ k s ci ch,
    servers w !! k = Some s →
    ci ∈ chan_pending (ChanCall s) →
    ci_chanRet ci = Some ch →
    (ch < length (rets w))%nat.

Section Accounting.

(** The async reply queue of the client and its capacity. *)
Variables (a : nat) (l : Z).

(** The queue is there and open, and [P] counts the calls of the
    client waiting in servers plus the replies waiting in the queue. *)
Definition accounted (P : Z) (w : World) : Prop :=
  ∃ ca, rets w !! a = Some ca
        ∧ closed ca = false
        ∧ cap ca = l
        ∧ P = Z.of_nat (inflight a w) + Z.of_nat (length (chan_pending ca)).

(** 1 for a call of the client, 0 for any other. *)
Definition ours (ci : CallInfo) : Z :=
  if decide (ci_chanRet ci = Some a) then 1 else 0.

(** The invariant of the client and its surroundings. *)
Definition counted (σ : sys) : Prop :=
  ChanAsynRet (sys_client σ) = a
  ∧ accounted (pendingAsynCall (sys_client σ)) (sys_world σ)
  ∧ pendingAsynCall (sys_client σ) ≤ l
  ∧ pendingAsynCall (sys_client σ) = admitted σ - acked σ.

End Accounting.

(** A callback of shape [func(interface{}, error)] and a day in the
    life of a client. *)
Definition on_value : callback := Callback ShValErr 8 None.
Definition some_ops : list op :=
  [OpAttach (Some 0%nat); OpIdle 0; OpAsynCall "echo" [VInt 1; VCb on_value];
   OpAsynCall "echo" [VInt 2; VCb on_value];
   OpAsynCall "echo" [VInt 3; VCb on_value];
   OpExec 0; OpCb; OpClose 0; OpCb; OpCb].

(** * Properties *)

(** Unfolding the monad. *)
Ltac run :=
  unfold bindM, retM, panic, block, recovering, get, log_Error, as_error in *;
  simpl in *.

Lemma last_snoc_value (l : list value) (x : value) : last (l ++ [x]) = Some x.
Proof. apply last_snoc. Qed.


(** ** Registration *)

(** C6. Registering a function under an id that is already in the
    function table of the server panics with the already-registered
    message, and leaves the world as it was: the table still maps the
    id to the original function and the call queue is untouched. *)
Theorem Register_twice_fails (w : World) (k : nat) (s : Server) (id : string)
    (g h : func) :
  servers w !! k = Some s →
  functions s !! id = Some g →
  Server_Register k id (IFunc h) w
  = (Panic (PStr ("function id " ++ id ++ ": already registered")), w).
Proof.
  intros Hs Hid. unfold Server_Register, load_server. run.
  rewrite Hs. simpl. rewrite Hid. reflexivity.
Qed.

Lemma Register_twice_fails_witness :
  Server_Register 0 "echo" (IFunc (F0 (λ _, Returns tt))) one_server
  = (Panic (PStr "function id echo: already registered"), one_server).
Proof.
  apply (Register_twice_fails one_server 0
           (mkServer (<["echo":=echo]> ∅) (Chan [] 0 false Away)) "echo" echo).
  - reflexivity.
  - reflexivity.
Defined.

(** ** Client.AsynCall: argument checks and admission control *)

(** C10. [AsynCall] takes its last argument as the callback.  With no
    argument at all it panics with callback-not-found; with a last
    argument that is none of the three callback shapes it panics with
    invalid-callback-definition.  In both cases the world is as before:
    nothing was enqueued, no callback ran, and the client (hence its
    counter) was not updated. *)
Theorem AsynCall_checks_callback (c : Client) (id : string) (w : World) :
  Client_AsynCall c id [] w = (Panic (PStr "callback function not found"), w)
  ∧ ∀ (args : list value) (cb : value),
      is_callback cb = false →
      Client_AsynCall c id (args ++ [cb]) w
      = (Panic (PStr "definition of callback function is invalid"), w).
Proof.
  split; [reflexivity|].
  intros args cb Hcb. unfold Client_AsynCall.
  rewrite last_snoc_value. run.
  destruct cb; try reflexivity. discriminate.
Qed.

Lemma AsynCall_checks_callback_witness :
  Client_AsynCall a_client "echo" [VInt 1; VStr "not a function"] one_server
  = (Panic (PStr "definition of callback function is invalid"), one_server).
Proof.
  apply (proj2 (AsynCall_checks_callback a_client "echo" one_server)
           [VInt 1] (VStr "not a function")).
  reflexivity.
Defined.

Lemma execCb_too_many (k : callback) (w : World) :
  ∃ w', execCb (mkRetInfo VNil (Some "too many calls") (VCb k)) w = (Ok tt, w')
        ∧ servers w' = servers w
        ∧ rets w' = rets w
        ∧ called w' = called w ++ [rejected k].
Proof.
  unfold execCb, rejected, invoke, assert. run.
  destruct (cb_shape k); simpl; destruct (cb_panics k); simpl; eauto.
Qed.

(** C2. A client whose counter has reached the capacity of its async
    reply queue rejects a further [AsynCall] on the spot: the callback
    given in the call has been invoked once, with the too-many-calls
    error, when [AsynCall] returns; no server and no reply queue has
    changed; and the client comes back with its counter as it was. *)
Theorem AsynCall_rejects_when_full (c : Client) (id : string)
    (args : list value) (k : callback) (w : World) :
  cap_ret (ChanAsynRet c) w ≤ pendingAsynCall c →
  ∃ w', Client_AsynCall c id (args ++ [VCb k]) w = (Ok c, w')
        ∧ servers w' = servers w
        ∧ rets w' = rets w
        ∧ called w' = called w ++ [rejected k].
Proof.
  intros Hfull. unfold Client_AsynCall.
  rewrite last_snoc_value.
  destruct (execCb_too_many k w) as (w' & Hcb & Hs & Hr & Hc).
  exists w'. repeat split; try assumption.
  unfold bindM at 1. unfold retM at 1.
  unfold bindM at 1. unfold get at 1.
  apply Z.leb_le in Hfull. rewrite Hfull.
  unfold bindM. rewrite Hcb. reflexivity.
Qed.

Lemma AsynCall_rejects_when_full_witness :
  ∃ w', Client_AsynCall full_client "echo" ([VInt 1] ++ [VCb on_error])
          full_client_world = (Ok full_client, w')
        ∧ servers w' = servers full_client_world
        ∧ rets w' = rets full_client_world
        ∧ called w' = called full_client_world ++ [rejected on_error].
Proof.
  apply (AsynCall_rejects_when_full full_client "echo" [VInt 1] on_error
           full_client_world).
  unfold cap_ret. simpl. lia.
Defined.

(** ** The synchronous entry points of the server *)

Lemma is_kind_spec (n : Z) (f : func) (w : World) :
  0 ≤ n ≤ 2 → is_kind n f w = (Ok (bool_decide (kind_of f = n)), w).
Proof.
  intros Hn. unfold is_kind.
  assert (n = 0 ∨ n = 1 ∨ n = 2) as [-> | [-> | ->]] by lia;
    destruct f; reflexivity.
Qed.

Lemma Server_Open_0 (k : nat) (w : World) :
  Server_Open k 0 w
  = (Ok (mkClient (Some k) (length (rets w)) (S (length (rets w))) 0),
     set_rets w (rets w ++ transient_chans)).
Proof. reflexivity. Qed.

Lemma Client_post_mismatch (c : Client) (k : nat) (s : Server) (id : string)
    (f : func) (args : list value) (n : Z) (w : World) :
  c_s c = Some k → servers w !! k = Some s → functions s !! id = Some f →
  0 ≤ n ≤ 2 → kind_of f ≠ n →
  Client_post c id args n w = (Ok (inr (mismatch id)), w).
Proof.
  intros Hc Hs Hf Hn Hk. unfold Client_post, Client_f, load_server.
  rewrite Hc. run. rewrite Hs. simpl. rewrite Hf.
  rewrite is_kind_spec by assumption.
  rewrite bool_decide_eq_false_2 by assumption. reflexivity.
Qed.

(** C7, as the code has it. [Server.Call0], [Call1] and [CallN] open a
    transient client with [Open(0)]: it is attached to the server, its
    sync reply slot has capacity 1 and its async reply queue capacity 0.
    Called on a function of another kind they return the
    return-type-mismatch error; the servers are as before (nothing was
    enqueued) and the only change to the reply channels is the two
    empty channels of the transient client. *)
Theorem Server_Call_opens_transient_client (w : World) (k : nat) :
  (∃ c w', Server_Open k 0 w = (Ok c, w')
           ∧ c_s c = Some k
           ∧ cap <$> rets w' !! chanSyncRet c = Some 1
           ∧ cap <$> rets w' !! ChanAsynRet c = Some 0
           ∧ Server_Call0 k = (λ id args, c <- Server_Open k 0 ;; Client_Call0 c id args)
           ∧ Server_Call1 k = (λ id args, c <- Server_Open k 0 ;; Client_Call1 c id args)
           ∧ Server_CallN k = (λ id args, c <- Server_Open k 0 ;; Client_CallN c id args))
  ∧ ∀ (s : Server) (id : string) (f : func) (args : list value),
      servers w !! k = Some s →
      functions s !! id = Some f →
      let w' := set_rets w (rets w ++ transient_chans) in
      (kind_of f ≠ 0 → Server_Call0 k id args w = (Ok (Some (mismatch id)), w'))
      ∧ (kind_of f ≠ 1 →
         Server_Call1 k id args w = (Ok (VNil, Some (mismatch id)), w'))
      ∧ (kind_of f ≠ 2 →
         Server_CallN k id args w = (Ok ([], Some (mismatch id)), w')).
Proof.
  split.
  - eexists _, _. split; [apply Server_Open_0|]. simpl.
    repeat split.
    + rewrite lookup_app_r by lia. by rewrite Nat.sub_diag.
    + rewrite lookup_app_r by lia.
      by replace (S (length (rets w)) - length (rets w))%nat with 1%nat by lia.
  - intros s id f args Hs Hf w'.
    assert (servers w' !! k = Some s) as Hs' by exact Hs.
    repeat split; intros Hk.
    + unfold Server_Call0, Client_Call0, bindM at 1. rewrite Server_Open_0.
      unfold bindM at 1.
      rewrite (Client_post_mismatch _ k s id f args 0 w') by (done || lia).
      reflexivity.
    + unfold Server_Call1, Client_Call1, bindM at 1. rewrite Server_Open_0.
      unfold bindM at 1.
      rewrite (Client_post_mismatch _ k s id f args 1 w') by (done || lia).
      reflexivity.
    + unfold Server_CallN, Client_CallN, bindM at 1. rewrite Server_Open_0.
      unfold bindM at 1.
      rewrite (Client_post_mismatch _ k s id f args 2 w') by (done || lia).
      reflexivity.
Qed.

Lemma Server_Call_opens_transient_client_witness :
  Server_Call0 0 "echo" [VInt 3] one_server
  = (Ok (Some (mismatch "echo")),
     set_rets one_server (rets one_server ++ transient_chans))
  ∧ Server_CallN 0 "echo" [VInt 3] one_server
    = (Ok ([], Some (mismatch "echo")),
       set_rets one_server (rets one_server ++ transient_chans))
  ∧ Server_Call1 0 "notify" [] notify_server
    = (Ok (VNil, Some (mismatch "notify")),
       set_rets notify_server (rets notify_server ++ transient_chans)).
Proof.
  pose proof (proj2 (Server_Call_opens_transient_client one_server 0)
                (mkServer (<["echo":=echo]> ∅) (Chan [] 0 false Away))
                "echo" echo [VInt 3] eq_refl eq_refl) as (H0 & _ & HN).
  pose proof (proj2 (Server_Call_opens_transient_client notify_server 0)
                (mkServer (<["notify":=F0 (λ _, Returns tt)]> ∅)
                   (Chan [] 0 false Away))
                "notify" (F0 (λ _, Returns tt)) [] eq_refl eq_refl)
    as (_ & H1 & _).
  split; [apply H0; simpl; lia|].
  split; [apply HN; simpl; lia|apply H1; simpl; lia].
Defined.

(** The sync reply slot of the client made by [Open(0)] does not have
    capacity 0: the [0] is the capacity of the async reply queue. *)
Lemma Open_0_sync_slot_is_not_unbuffered :
  ¬ (∀ (w : World) (k : nat) (c : Client) (w' : World),
       Server_Open k 0 w = (Ok c, w') →
       cap <$> rets w' !! chanSyncRet c = Some 0).
Proof.
  intros H.
  specialize (H one_server 0%nat _ _ eq_refl).
  vm_compute in H. discriminate H.
Qed.

(** ** The gates of the Skeleton *)

Section Gates.

Context {Go Dispatcher LinearContext Timer Cron Duration CronExpr Thunk : Type}.
Variable g_Go : Go → Thunk → Thunk → Go.
Variable g_NewLinearContext : Go → Go * LinearContext.
Variable timer_AfterFunc : Dispatcher → Duration → Thunk → Dispatcher * Timer.
Variable timer_CronFunc : Dispatcher → CronExpr → Thunk → Dispatcher * Cron.

(** C8, as the code has it. Six operations of the Skeleton are gated:
    [AfterFunc] and [CronFunc] on [TimerDispatcherLen], [Go] and
    [NewLinearContext] on [GoLen], [AsynCall] on [AsynCallLen],
    [RegisterChanRPC] on [ChanRPCServer].  With the field zero or nil
    the operation panics at once and the world is as before. *)
Theorem Skeleton_gates (s : Skeleton Go Dispatcher) (w : World) :
  (TimerDispatcherLen s = 0 →
   (∀ d cb, Skeleton_AfterFunc timer_AfterFunc s d cb w
            = (Panic (PStr "invalid TimerDispatcherLen"), w))
   ∧ (∀ e cb, Skeleton_CronFunc timer_CronFunc s e cb w
              = (Panic (PStr "invalid TimerDispatcherLen"), w)))
  ∧ (GoLen s = 0 →
     (∀ f cb, Skeleton_Go g_Go s f cb w = (Panic (PStr "invalid GoLen"), w))
     ∧ Skeleton_NewLinearContext g_NewLinearContext s w
       = (Panic (PStr "invalid GoLen"), w))
  ∧ (AsynCallLen s = 0 →
     ∀ srv id args, Skeleton_AsynCall s srv id args w
                    = (Panic (PStr "invalid AsynCallLen"), w))
  ∧ (ChanRPCServer s = None →
     ∀ id f, Skeleton_RegisterChanRPC s id f w
             = (Panic (PStr "invalid ChanRPCServer"), w)).
Proof.
  split; [intros H; split | split; [intros H; split | split; intros H]].
  - intros d cb. unfold Skeleton_AfterFunc. by rewrite H.
  - intros e cb. unfold Skeleton_CronFunc. by rewrite H.
  - intros f cb. unfold Skeleton_Go. by rewrite H.
  - unfold Skeleton_NewLinearContext. by rewrite H.
  - intros srv id args. unfold Skeleton_AsynCall. by rewrite H.
  - intros id f. unfold Skeleton_RegisterChanRPC. by rewrite H.
Qed.

End Gates.

Lemma Skeleton_gates_witness :
  Skeleton_AfterFunc (λ d (_ _ : unit), (d, tt)) bare tt tt (start "")
  = (Panic (PStr "invalid TimerDispatcherLen"), start "")
  ∧ Skeleton_Go (λ p (_ _ : unit), p) bare tt tt (start "")
    = (Panic (PStr "invalid GoLen"), start "")
  ∧ Skeleton_AsynCall bare (Some 0%nat) "echo" [VCb on_error] (start "")
    = (Panic (PStr "invalid AsynCallLen"), start "")
  ∧ Skeleton_RegisterChanRPC bare "echo" (IFunc echo) (start "")
    = (Panic (PStr "invalid ChanRPCServer"), start "").
Proof.
  pose proof (Skeleton_gates (λ p (_ _ : unit), p) (λ p, (p, tt))
                (λ d (_ _ : unit), (d, tt)) (λ d (_ _ : unit), (d, tt))
                bare (start "")) as (Htimer & Hgo & Hasyn & Hrpc).
  split; [apply (proj1 (Htimer eq_refl))|].
  split; [apply (proj1 (Hgo eq_refl))|].
  split; [apply (Hasyn eq_refl)|apply (Hrpc eq_refl)].
Defined.

(** [RegisterCommand] has no gate: on a Skeleton with all four
    configuration fields zero or nil, once [Init] has run, it registers
    the command. *)
Lemma RegisterCommand_is_not_gated :
  ∃ (s : Skeleton unit unit) (w w' : World),
    Skeleton_Init (λ _, tt) (λ _, tt) bare (start "") = (Ok s, w)
    ∧ TimerDispatcherLen s = 0 ∧ GoLen s = 0 ∧ AsynCallLen s = 0
    ∧ ChanRPCServer s = None
    ∧ Skeleton_RegisterCommand s "echo" "repeat the arguments" (IFunc echo) w
      = (Ok tt, w')
    ∧ commands w'
      = commands w ++ [ExternalCommand "echo" "repeat the arguments" 1]
    ∧ (∃ srv, servers w' !! 1%nat = Some srv ∧ functions srv !! "echo" = Some echo).
Proof.
  eexists _, _, _. split; [reflexivity|].
  repeat split; try reflexivity.
  eexists. split; reflexivity.
Qed.

(** ** The module manager *)

Lemma bindM_Ok {A B} (m : M A) (k : A → M B) (w w' : World) (a : A) :
  m w = (Ok a, w') → bindM m k w = k a w'.
Proof. intros H. unfold bindM. by rewrite H. Qed.

Lemma panic_line_indep (r : panicval) (w w' : World) :
  LenStackBuf w' = LenStackBuf w → stack w' = stack w →
  panic_line r w' = panic_line r w.
Proof. intros H1 H2. unfold panic_line. by rewrite H1, H2. Qed.

Lemma module_destroy_runs (w : World) (i : nat) (m : module) :
  mods w !! i = Some m →
  module_destroy i w
  = (Ok tt, set_logged (set_trace w (trace w ++ [EvOnDestroy i]))
              (logged w ++ destroy_line w (mi m))).
Proof.
  intros Hi. unfold module_destroy, load_mod, emit, destroy_line. run.
  rewrite Hi. simpl.
  destruct (OnDestroy_panics (mi m)); simpl.
  - reflexivity.
  - destruct w; simpl. by rewrite app_nil_r.
Qed.

Lemma Destroy_step (w : World) (i : nat) (x : ModuleI) :
  mods w !! i = Some (running x) →
  Run_returns_on_close x = true →
  (send_closeSig i ;; wg_Wait i ;; module_destroy i) w
  = (Ok tt,
     set_logged
       (set_trace (set_mods w (<[i:=stopped x]> (mods w))) (trace w ++ teardown i))
       (logged w ++ destroy_line w x)).
Proof.
  intros Hi Hrun.
  assert (i < length (mods w))%nat as Hlen by (by eapply lookup_lt_Some).
  unfold send_closeSig at 1, load_mod, store_mod, emit. run.
  rewrite Hi. simpl.
  unfold wg_Wait at 1, load_mod, store_mod, emit. run.
  rewrite list_lookup_insert_eq by assumption. simpl.
  rewrite Hrun. simpl.
  erewrite module_destroy_runs
    by (simpl; rewrite list_lookup_insert_eq;
        [reflexivity | by rewrite length_insert]).
  simpl. rewrite list_insert_insert_eq.
  destruct w; simpl. unfold teardown.
  by rewrite <- !app_assoc.
Qed.

Lemma Destroy_step_again (w : World) (i : nat) (x : ModuleI) :
  mods w !! i = Some (stopped x) →
  (send_closeSig i ;; wg_Wait i ;; module_destroy i) w
  = (Ok tt,
     set_logged
       (set_trace (set_mods w (<[i:=signalled x]> (mods w)))
          (trace w ++ teardown_again i))
       (logged w ++ destroy_line w x)).
Proof.
  intros Hi.
  assert (i < length (mods w))%nat as Hlen by (by eapply lookup_lt_Some).
  unfold send_closeSig at 1, load_mod, store_mod, emit. run.
  rewrite Hi. simpl.
  unfold wg_Wait at 1, load_mod, store_mod, emit. run.
  rewrite list_lookup_insert_eq by assumption. simpl.
  erewrite module_destroy_runs
    by (simpl; rewrite list_lookup_insert_eq; [reflexivity | assumption]).
  simpl.
  destruct w; simpl. unfold teardown_again.
  by rewrite <- !app_assoc.
Qed.

Lemma Destroy_from_bind (i : nat) (w w1 : World) :
  (send_closeSig i ;; wg_Wait i ;; module_destroy i) w = (Ok tt, w1) →
  Destroy_from (S i) w = Destroy_from i w1.
Proof.
  intros H. simpl. unfold bindM in *.
  destruct (send_closeSig i w) as [[| | |] wa]; try discriminate.
  destruct (wg_Wait i wa) as [[| | |] wb]; try discriminate.
  destruct (module_destroy i wb) as [[[]| | |] wc]; try discriminate.
  by injection H as ->.
Qed.

Lemma rev_seq_S (n : nat) : rev (seq 0 (S n)) = n :: rev (seq 0 n).
Proof. rewrite seq_S, rev_app_distr. reflexivity. Qed.

Lemma Destroy_from_running (xs : list ModuleI) :
  ∀ (w : World) (rest : list module),
    mods w = map running xs ++ rest →
    Forall (λ x, Run_returns_on_close x = true) xs →
    Destroy_from (length xs) w
    = (Ok tt,
       set_logged
         (set_trace (set_mods w (map stopped xs ++ rest))
            (trace w ++ flat_map teardown (rev (seq 0 (length xs)))))
         (logged w ++ flat_map (destroy_line w) (rev xs))).
Proof.
  induction xs as [|x xs IH] using rev_ind; intros w rest Hm Hall.
  - simpl in *. destruct w; simpl in *. subst. by rewrite !app_nil_r.
  - rewrite Forall_app, Forall_singleton in Hall. destruct Hall as [Hall Hx].
    rewrite length_app. simpl. rewrite Nat.add_1_r.
    rewrite map_app in Hm. simpl in Hm. rewrite <- app_assoc in Hm. simpl in Hm.
    assert (mods w !! length xs = Some (running x)) as Hi.
    { rewrite Hm, lookup_app_r by (rewrite length_map; lia).
      by rewrite length_map, Nat.sub_diag. }
    rewrite (Destroy_from_bind _ _ _ (Destroy_step w _ x Hi Hx)).
    rewrite (IH _ (stopped x :: rest)); [|simpl|assumption].
    + rewrite rev_seq_S, rev_app_distr. simpl.
      rewrite map_app. simpl.
      destruct w; unfold set_logged, set_trace, set_mods, destroy_line, panic_line;
        simpl. by rewrite <- !app_assoc.
    + rewrite Hm.
      replace (length xs) with (length (map running xs) + 0)%nat
        by (rewrite length_map; lia).
      by rewrite insert_app_r.
Qed.

Lemma Destroy_from_stopped (xs : list ModuleI) :
  ∀ (w : World) (rest : list module),
    mods w = map stopped xs ++ rest →
    Destroy_from (length xs) w
    = (Ok tt,
       set_logged
         (set_trace (set_mods w (map signalled xs ++ rest))
            (trace w ++ flat_map teardown_again (rev (seq 0 (length xs)))))
         (logged w ++ flat_map (destroy_line w) (rev xs))).
Proof.
  induction xs as [|x xs IH] using rev_ind; intros w rest Hm.
  - simpl in *. destruct w; simpl in *. subst. by rewrite !app_nil_r.
  - rewrite length_app. simpl. rewrite Nat.add_1_r.
    rewrite map_app in Hm. simpl in Hm. rewrite <- app_assoc in Hm. simpl in Hm.
    assert (mods w !! length xs = Some (stopped x)) as Hi.
    { rewrite Hm, lookup_app_r by (rewrite length_map; lia).
      by rewrite length_map, Nat.sub_diag. }
    rewrite (Destroy_from_bind _ _ _ (Destroy_step_again w _ x Hi)).
    rewrite (IH _ (signalled x :: rest)); [|simpl].
    + rewrite rev_seq_S, rev_app_distr. simpl.
      rewrite map_app. simpl.
      destruct w; unfold set_logged, set_trace, set_mods, destroy_line, panic_line;
        simpl. by rewrite <- !app_assoc.
    + rewrite Hm.
      replace (length xs) with (length (map stopped xs) + 0)%nat
        by (rewrite length_map; lia).
      by rewrite insert_app_r.
Qed.

Lemma Register_all_appends (xs : list ModuleI) :
  ∀ w : World,
    Register_all xs w = (Ok tt, set_mods w (mods w ++ map stopped xs)).
Proof.
  induction xs as [|x xs IH]; intros w.
  - simpl. unfold retM. destruct w; simpl. by rewrite app_nil_r.
  - simpl. unfold bindM at 1. unfold module_Register. run.
    rewrite IH. destruct w; unfold set_mods; simpl. by rewrite <- app_assoc.
Qed.

Lemma Init_OnInit_all (xs : list ModuleI) :
  ∀ (w : World) (pre : list module),
    mods w = pre ++ map stopped xs →
    Forall (λ x, OnInit_panics x = None) xs →
    Init_OnInit (length pre) (length xs) w
    = (Ok tt, set_trace w (trace w ++ map EvOnInit (seq (length pre) (length xs)))).
Proof.
  induction xs as [|x xs IH]; intros w pre Hm Hall.
  - simpl. unfold retM. destruct w; simpl. by rewrite app_nil_r.
  - inversion Hall as [|? ? Hx Hall']; subst. simpl.
    unfold load_mod, emit. run.
    rewrite Hm, lookup_app_r by lia. rewrite Nat.sub_diag. simpl. rewrite Hx.
    specialize (IH (set_trace w (trace w ++ [EvOnInit (length pre)])) (pre ++ [stopped x])).
    rewrite length_app in IH. simpl in IH. rewrite Nat.add_1_r in IH.
    rewrite IH; [|by rewrite Hm, <- app_assoc|assumption].
    destruct w; unfold set_trace; simpl. by rewrite <- app_assoc.
Qed.

Lemma Init_run_all (xs : list ModuleI) :
  ∀ (w : World) (pre : list module),
    mods w = pre ++ map stopped xs →
    Init_run (length pre) (length xs) w
    = (Ok tt, set_mods w (pre ++ map running xs)).
Proof.
  induction xs as [|x xs IH]; intros w pre Hm.
  - simpl. unfold retM. destruct w; simpl in *. by subst.
  - simpl. unfold load_mod, store_mod. run.
    rewrite Hm, lookup_app_r by lia. rewrite Nat.sub_diag. simpl.
    specialize (IH (set_mods w (pre ++ running x :: map stopped xs)) (pre ++ [running x])).
    rewrite length_app in IH. simpl in IH. rewrite Nat.add_1_r in IH.
    rewrite Hm at 1. rewrite insert_app_r_alt by lia. rewrite Nat.sub_diag. simpl.
    change (mk_module x (Chan [] 1 false Away) (0 + 1)) with (running x).
    rewrite IH; [|by rewrite <- app_assoc].
    destruct w; unfold set_mods; simpl. by rewrite <- app_assoc.
Qed.

Lemma startup (xs : list ModuleI) (w : World) :
  mods w = [] →
  Forall (λ x, OnInit_panics x = None) xs →
  (Register_all xs ;; module_Init) w
  = (Ok tt, set_trace (set_mods w (map running xs))
              (trace w ++ map EvOnInit (seq 0 (length xs)))).
Proof.
  intros Hm Hall.
  rewrite (bindM_Ok _ _ _ _ _ (Register_all_appends xs w)).
  rewrite Hm. simpl. unfold module_Init, get. run.
  rewrite length_map.
  rewrite (Init_OnInit_all xs _ []) by done. simpl.
  rewrite (Init_run_all xs _ []) by done. simpl.
  by destruct w.
Qed.

Lemma startup_then_Destroy (xs : list ModuleI) (w : World) :
  mods w = [] →
  Forall (λ x, OnInit_panics x = None ∧ Run_returns_on_close x = true) xs →
  ∃ w1 w2,
    (Register_all xs ;; module_Init) w = (Ok tt, w1)
    ∧ module_Destroy w1 = (Ok tt, w2)
    ∧ trace w2 = trace w1 ++ flat_map teardown (rev (seq 0 (length xs)))
    ∧ logged w2 = logged w1 ++ flat_map (destroy_line w1) (rev xs)
    ∧ mods w2 = map stopped xs.
Proof.
  intros Hm Hall.
  apply Forall_and in Hall as [Hinit Hrun].
  eexists _, _. split; [by apply startup|].
  unfold module_Destroy, get. run. rewrite length_map.
  rewrite (Destroy_from_running xs _ []) by (simpl; by rewrite ?app_nil_r).
  simpl. by rewrite app_nil_r.
Qed.

(** C5. With modules registered in the order 0 .. n-1 and started by
    [Init], [Destroy] goes through them in reverse order (n-1 first, 0
    last); for each it sends the close signal, waits until [Run] has
    returned, and only then runs [OnDestroy]; a panic of [OnDestroy] is
    recovered and logged, and the modules after it are torn down all the
    same. *)
Theorem Destroy_reverse_order (xs : list ModuleI) (w : World) :
  mods w = [] →
  Forall (λ x, OnInit_panics x = None ∧ Run_returns_on_close x = true) xs →
  ∃ w1 w2,
    (Register_all xs ;; module_Init) w = (Ok tt, w1)
    ∧ module_Destroy w1 = (Ok tt, w2)
    ∧ trace w2 = trace w1 ++ flat_map teardown (rev (seq 0 (length xs)))
    ∧ logged w2 = logged w1 ++ flat_map (destroy_line w1) (rev xs)
    ∧ mods w2 = map stopped xs.
Proof. apply startup_then_Destroy. Qed.

Lemma Destroy_reverse_order_witness :
  ∃ w1 w2,
    (Register_all [quiet; clumsy; quiet] ;; module_Init) (start "") = (Ok tt, w1)
    ∧ module_Destroy w1 = (Ok tt, w2)
    ∧ trace w2 = trace w1 ++ flat_map teardown (rev (seq 0 3))
    ∧ logged w2 = logged w1 ++ flat_map (destroy_line w1) (rev [quiet; clumsy; quiet])
    ∧ mods w2 = map stopped [quiet; clumsy; quiet].
Proof.
  apply (Destroy_reverse_order [quiet; clumsy; quiet] (start "")).
  - reflexivity.
  - repeat constructor.
Defined.

(** C9, as the code has it. A second [Destroy] after a completed first
    one is a second teardown: every module is sent another close signal,
    which stays in its channel because [Run] has returned already, and
    every module's [OnDestroy] runs once more, in reverse order. *)
Theorem Destroy_twice_runs_OnDestroy_again (xs : list ModuleI) (w : World) :
  mods w = [] →
  Forall (λ x, OnInit_panics x = None ∧ Run_returns_on_close x = true) xs →
  ∃ w1 w2 w3,
    (Register_all xs ;; module_Init) w = (Ok tt, w1)
    ∧ module_Destroy w1 = (Ok tt, w2)
    ∧ module_Destroy w2 = (Ok tt, w3)
    ∧ trace w3 = trace w2 ++ flat_map teardown_again (rev (seq 0 (length xs)))
    ∧ logged w3 = logged w2 ++ flat_map (destroy_line w2) (rev xs)
    ∧ mods w3 = map signalled xs.
Proof.
  intros Hm Hall.
  destruct (startup_then_Destroy xs w Hm Hall) as (w1 & w2 & H1 & H2 & _ & _ & Hm2).
  exists w1, w2. eexists. repeat split; try eassumption.
  - unfold module_Destroy, get. run. rewrite Hm2, length_map.
    rewrite (Destroy_from_stopped xs w2 []) by (by rewrite app_nil_r).
    reflexivity.
  - simpl. reflexivity.
  - simpl. reflexivity.
  - simpl. by rewrite app_nil_r.
Qed.

Lemma Destroy_twice_runs_OnDestroy_again_witness :
  ∃ w1 w2 w3,
    (Register_all [quiet; clumsy] ;; module_Init) (start "") = (Ok tt, w1)
    ∧ module_Destroy w1 = (Ok tt, w2)
    ∧ module_Destroy w2 = (Ok tt, w3)
    ∧ trace w3 = trace w2 ++ flat_map teardown_again (rev (seq 0 2))
    ∧ logged w3 = logged w2 ++ flat_map (destroy_line w2) (rev [quiet; clumsy])
    ∧ mods w3 = map signalled [quiet; clumsy].
Proof.
  apply (Destroy_twice_runs_OnDestroy_again [quiet; clumsy] (start "")).
  - reflexivity.
  - repeat constructor.
Defined.

(** With one module, the second [Destroy] runs its [OnDestroy] a second
    time and leaves a value in its close-signal channel. *)
Lemma second_Destroy_is_not_a_noop :
  ∃ w1 w2 w3,
    (Register_all [quiet] ;; module_Init) (start "") = (Ok tt, w1)
    ∧ module_Destroy w1 = (Ok tt, w2)
    ∧ module_Destroy w2 = (Ok tt, w3)
    ∧ trace w2 = [EvOnInit 0; EvCloseSig 0; EvRunReturned 0; EvOnDestroy 0]
    ∧ trace w3 = trace w2 ++ [EvCloseSig 0; EvOnDestroy 0]
    ∧ mods w3 ≠ mods w2.
Proof.
  eexists _, _, _. repeat split; try reflexivity.
  vm_compute. discriminate.
Qed.

(** ** Replies *)

Lemma chan_send_room {A} (x : A) (n : nat) (c : chan A) :
  room_for (S n) c = true →
  ∃ c', chan_send x c = Sent c'
        ∧ chan_pending c' = chan_pending c ++ [x]
        ∧ room_for n c' = true
        ∧ cap c' = cap c
        ∧ closed c' = false.
Proof.
  unfold room_for, chan_send, chan_pending. intros H.
  apply andb_true_iff in H as [Hc H].
  apply negb_true_iff in Hc. rewrite Hc.
  destruct (rx c) eqn:Hrx.
  - apply Z.leb_le in H.
    destruct (Z.ltb_spec (Z.of_nat (length (buf c))) (cap c)); [|lia].
    eexists. split; [reflexivity|]. simpl.
    repeat split. rewrite length_app. simpl. apply Z.leb_le. lia.
  - destruct (buf c) eqn:Hb; [|discriminate].
    apply Z.leb_le in H.
    eexists. split; [reflexivity|]. simpl.
    repeat split. apply Z.leb_le. lia.
  - apply Z.leb_le in H.
    destruct (Z.ltb_spec (Z.of_nat (length (buf c))) (cap c)); [|lia].
    eexists. split; [reflexivity|]. simpl.
    repeat split. rewrite length_app. simpl. apply Z.leb_le. lia.
Qed.

(** What [Server.ret] does with a reply, case by case. *)
Lemma Server_ret_cases (ci : CallInfo) (ri : RetInfo) (w : World) :
  Server_ret ci ri w
  = match ci_chanRet ci with
    | None => (Ok None, w)
    | Some ch =>
      match rets w !! ch with
      | None => (Block, w)
      | Some c0 =>
        match chan_send (mkRetInfo (ri_ret ri) (ri_err ri) (ci_cb ci)) c0 with
        | Sent c1 => (Ok None, set_rets w (<[ch:=c1]> (rets w)))
        | Full => (Block, w)
        | SendOnClosed => (Ok (Some "send on closed channel"), w)
        end
      end
    end.
Proof.
  unfold Server_ret, send_ret, store_ret. run.
  destruct (ci_chanRet ci) as [ch|]; [|reflexivity].
  destruct (rets w !! ch) as [c0|]; [|reflexivity].
  by destruct (chan_send _ c0).
Qed.

(** What [Server.exec] does with a call, case by case. *)
Lemma Server_exec_cases (ci : CallInfo) (w : World) :
  Server_exec ci w
  = match ci_chanRet ci with
    | None => (Ok (exec_err ci w), w)
    | Some ch =>
      match rets w !! ch with
      | None => (Block, w)
      | Some c0 =>
        match chan_send (reply_of ci) c0 with
        | Sent c1 => (Ok (exec_err ci w), set_rets w (<[ch:=c1]> (rets w)))
        | Full => (Block, w)
        | SendOnClosed =>
          (Ok (match handler_panic ci with
               | Some r => Some (panic_line r w)
               | None => Some "send on closed channel"
               end), w)
        end
      end
    end.
Proof.
  unfold Server_exec, exec_err, handler_panic, reply_of.
  unfold recovering, bindM, panic, get, retM.
  destruct (ci_f ci) as [f|f|f]; destruct (f (ci_args ci)) as [a|r];
    rewrite Server_ret_cases; simpl;
    destruct (ci_chanRet ci) as [ch|]; try reflexivity;
    destruct (rets w !! ch) as [c0|]; try reflexivity;
    destruct (chan_send _ c0); reflexivity.
Qed.

Lemma owed_cons_same (ch : nat) (ci : CallInfo) (q : list CallInfo) :
  ci_chanRet ci = Some ch → owed ch (ci :: q) = ci :: owed ch q.
Proof. intros H. unfold owed. by rewrite filter_cons_True. Qed.

Lemma owed_cons_other (ch : nat) (ci : CallInfo) (q : list CallInfo) :
  ci_chanRet ci ≠ Some ch → owed ch (ci :: q) = owed ch q.
Proof. intros H. unfold owed. by rewrite filter_cons_False. Qed.

Lemma Close_range_delivers (k : nat) (q : list CallInfo) :
  ∀ (w : World) (s : Server),
    servers w !! k = Some s →
    buf (ChanCall s) = q →
    (∀ ch, owed ch q ≠ [] →
           ∃ c0, rets w !! ch = Some c0
                 ∧ room_for (length (owed ch q)) c0 = true) →
    ∃ w', Server_Close_range k q w = (Ok tt, w')
          ∧ servers w' = <[k:=drained s]> (servers w)
          ∧ ∀ ch c0, rets w !! ch = Some c0 →
              ∃ c1, rets w' !! ch = Some c1
                    ∧ chan_pending c1
                      = chan_pending c0 ++ map closed_reply (owed ch q).
Proof.
  induction q as [|ci q IH]; intros w s Hs Hq Hroom.
  - exists w. split; [reflexivity|]. split.
    + symmetry. apply list_insert_id. rewrite Hs. f_equal.
      destruct s as [fs [b c cl r]]. simpl in *. by subst.
    + intros ch c0 Hc0. exists c0. simpl. by rewrite app_nil_r.
  - set (s1 := mkServer (functions s)
                 (Chan q (cap (ChanCall s)) (closed (ChanCall s)) (rx (ChanCall s)))).
    assert (k < length (servers w))%nat as Hk by (by eapply lookup_lt_Some).
    simpl. unfold load_server, store_server, bindM at 1. rewrite Hs.
    unfold bindM at 1. unfold bindM at 1.
    rewrite Server_ret_cases. simpl.
    destruct (ci_chanRet ci) as [ch|] eqn:Hch.
    + destruct (Hroom ch) as (c0 & Hc0 & Hr0).
      { by rewrite owed_cons_same. }
      rewrite owed_cons_same in Hr0 by assumption. simpl in Hr0.
      destruct (chan_send_room (closed_reply ci) _ _ Hr0) as (c1 & Hsend & Hp1 & Hr1 & _ & _).
      rewrite Hc0. unfold server_closed. simpl.
      unfold closed_reply in Hsend. rewrite Hsend.
      assert (ch < length (rets w))%nat as Hlt by (by eapply lookup_lt_Some).
      destruct (IH (set_rets (set_servers w (<[k:=s1]> (servers w)))
                      (<[ch:=c1]> (rets w))) s1) as (w' & Hrun & Hsrv & Hdel).
      { simpl. by apply list_lookup_insert_eq. }
      { reflexivity. }
      { intros ch' Hne. simpl.
        destruct (decide (ch' = ch)) as [->|Hd].
        - exists c1. split; [by apply list_lookup_insert_eq|assumption].
        - rewrite list_lookup_insert_ne by done.
          destruct (Hroom ch') as (c' & Hc' & Hr').
          { rewrite owed_cons_other by congruence. assumption. }
          rewrite owed_cons_other in Hr' by congruence. eauto. }
      exists w'. split; [exact Hrun|]. split.
      * rewrite Hsrv. simpl. by rewrite list_insert_insert_eq.
      * intros ch' c0' Hc0'.
        destruct (decide (ch' = ch)) as [->|Hd].
        -- rewrite Hc0 in Hc0'. injection Hc0' as <-.
           destruct (Hdel ch c1) as (c2 & Hc2 & Hp2).
           { simpl. by apply list_lookup_insert_eq. }
           exists c2. split; [assumption|].
           rewrite Hp2, Hp1, owed_cons_same by assumption.
           simpl. by rewrite <- app_assoc.
        -- destruct (Hdel ch' c0') as (c2 & Hc2 & Hp2).
           { simpl. by rewrite list_lookup_insert_ne. }
           exists c2. split; [assumption|].
           by rewrite Hp2, owed_cons_other by congruence.
    + destruct (IH (set_servers w (<[k:=s1]> (servers w))) s1)
        as (w' & Hrun & Hsrv & Hdel).
      { simpl. by apply list_lookup_insert_eq. }
      { reflexivity. }
      { intros ch' Hne. simpl.
        destruct (Hroom ch') as (c' & Hc' & Hr').
        { rewrite owed_cons_other by congruence. assumption. }
        rewrite owed_cons_other in Hr' by congruence. eauto. }
      exists w'. split; [exact Hrun|]. split.
      * rewrite Hsrv. simpl. by rewrite list_insert_insert_eq.
      * intros ch' c0' Hc0'.
        destruct (Hdel ch' c0' Hc0') as (c2 & Hc2 & Hp2).
        exists c2. split; [assumption|].
        by rewrite Hp2, owed_cons_other by congruence.
Qed.

(** C1. A call with a reply queue gets exactly one reply on that queue.
    When the server executes the call, the queue receives one reply,
    the value of the function or its panic as an error, and no other
    queue changes.  When the server is closed, every call still in its
    call queue gets one server-closed reply on its own queue, and
    nothing else is sent.  The reply queues are open and have room for
    the replies they are owed. *)
Theorem every_call_gets_one_reply :
  (∀ (ci : CallInfo) (ch : nat) (c0 : chan RetInfo) (w : World),
     ci_chanRet ci = Some ch →
     rets w !! ch = Some c0 →
     room_for 1 c0 = true →
     ∃ c1 w',
       Server_exec ci w = (Ok (exec_err ci w), w')
       ∧ rets w' = <[ch:=c1]> (rets w)
       ∧ chan_pending c1 = chan_pending c0 ++ [reply_of ci]
       ∧ servers w' = servers w)
  ∧ (∀ (k : nat) (s : Server) (w : World),
       servers w !! k = Some s →
       closed (ChanCall s) = false →
       (∀ ch, owed ch (buf (ChanCall s)) ≠ [] →
              ∃ c0, rets w !! ch = Some c0
                    ∧ room_for (length (owed ch (buf (ChanCall s)))) c0 = true) →
       ∃ w',
         Server_Close k w = (Ok tt, w')
         ∧ servers w' = <[k:=shut s]> (servers w)
         ∧ ∀ ch c0, rets w !! ch = Some c0 →
             ∃ c1, rets w' !! ch = Some c1
                   ∧ chan_pending c1
                     = chan_pending c0
                       ++ map closed_reply (owed ch (buf (ChanCall s)))).
Proof.
  split.
  - intros ci ch c0 w Hch Hc0 Hroom.
    destruct (chan_send_room (reply_of ci) _ _ Hroom) as (c1 & Hsend & Hp & _).
    exists c1. eexists. rewrite Server_exec_cases, Hch, Hc0, Hsend.
    repeat split. assumption.
  - intros k s w Hs Hopen Hroom.
    assert (k < length (servers w))%nat as Hk by (by eapply lookup_lt_Some).
    set (s1 := mkServer (functions s)
                 (Chan (buf (ChanCall s)) (cap (ChanCall s)) true (rx (ChanCall s)))).
    destruct (Close_range_delivers k (buf (ChanCall s))
                (set_servers w (<[k:=s1]> (servers w))) s1)
      as (w' & Hrun & Hsrv & Hdel).
    { simpl. by apply list_lookup_insert_eq. }
    { reflexivity. }
    { exact Hroom. }
    exists w'. split; [|split].
    + unfold Server_Close, load_server, store_server, bindM at 1. rewrite Hs, Hopen.
      unfold bindM at 1. exact Hrun.
    + rewrite Hsrv. simpl. by rewrite list_insert_insert_eq.
    + exact Hdel.
Qed.

Lemma every_call_gets_one_reply_witness :
  (∃ c1 w',
     Server_exec echo_call busy_world = (Ok (exec_err echo_call busy_world), w')
     ∧ rets w' = <[0%nat:=c1]> (rets busy_world)
     ∧ chan_pending c1 = chan_pending reply_slot ++ [reply_of echo_call]
     ∧ servers w' = servers busy_world)
  ∧ (∃ w',
       Server_Close 0 busy_world = (Ok tt, w')
       ∧ servers w' = <[0%nat:=shut busy_server]> (servers busy_world)
       ∧ ∀ ch c0, rets busy_world !! ch = Some c0 →
           ∃ c1, rets w' !! ch = Some c1
                 ∧ chan_pending c1
                   = chan_pending c0
                     ++ map closed_reply (owed ch (buf (ChanCall busy_server)))).
Proof.
  split.
  - apply (proj1 every_call_gets_one_reply echo_call 0%nat reply_slot busy_world);
      reflexivity.
  - apply (proj2 every_call_gets_one_reply 0%nat busy_server busy_world).
    + reflexivity.
    + reflexivity.
    + intros [|ch] H.
      * exists reply_slot. split; reflexivity.
      * exfalso. apply H. reflexivity.
Defined.

(** ** Synchronous calls and panics *)

Lemma chan_recv_pending {A} (c : chan A) (x : A) (q : list A) :
  chan_pending c = x :: q →
  ∃ c', chan_recv c = Some (x, c')
        ∧ buf c' = q ∧ rx c' = Away
        ∧ closed c' = closed c ∧ cap c' = cap c.
Proof.
  unfold chan_pending, chan_recv. intros H.
  destruct (rx c); simpl in H.
  - rewrite H. eexists. split; [reflexivity|]. by simpl.
  - rewrite H. eexists. split; [reflexivity|]. by simpl.
  - injection H as -> ->. eexists. split; [reflexivity|]. by simpl.
Qed.

Lemma Client_post_accepted (c : Client) (k : nat) (s : Server) (id : string)
    (f : func) (args : list value) (c' : chan CallInfo) (w : World) :
  c_s c = Some k → servers w !! k = Some s → functions s !! id = Some f →
  chan_send (mkCallInfo f args (Some (chanSyncRet c)) VNil) (ChanCall s) = Sent c' →
  Client_post c id args (kind_of f) w
  = (Ok (inl tt), set_servers w (<[k:=mkServer (functions s) c']> (servers w))).
Proof.
  intros Hc Hs Hf Hsend.
  unfold Client_post, Client_f, Client_call, send_call, load_server, store_server.
  rewrite Hc. run. rewrite Hs. simpl. rewrite Hf.
  rewrite is_kind_spec by (destruct f; simpl; lia).
  rewrite bool_decide_eq_true_2 by reflexivity.
  rewrite Hs. simpl. rewrite Hsend. reflexivity.
Qed.

Lemma Run_turn_serves (k ch : nat) (s : Server) (ci : CallInfo)
    (c0 c1 : chan RetInfo) (w : World) :
  servers w !! k = Some s →
  chan_pending (ChanCall s) = [ci] →
  closed (ChanCall s) = false →
  ci_chanRet ci = Some ch →
  rets w !! ch = Some c0 →
  chan_send (reply_of ci) c0 = Sent c1 →
  Run_turn k w
  = (Ok tt,
     set_logged
       (set_rets (set_servers w (<[k:=rested s]> (servers w))) (<[ch:=c1]> (rets w)))
       (logged w ++ exec_lines ci w)).
Proof.
  intros Hs Hp Hopen Hch Hc0 Hsend.
  assert (k < length (servers w))%nat as Hk by (by eapply lookup_lt_Some).
  destruct (chan_recv_pending _ _ _ Hp) as (c' & Hrecv & Hb & Hrx & Hcl & Hcap).
  unfold Run_turn, Run_case_ChanCall, Run_select_idle, Server_Exec.
  unfold load_server, store_server, bindM at 1. unfold bindM at 1.
  rewrite Hs, Hrecv.
  unfold bindM at 1. unfold bindM at 1. unfold bindM at 1.
  rewrite Server_exec_cases, Hch. simpl. rewrite Hc0, Hsend.
  unfold exec_err, exec_lines, log_Error, retM, bindM.
  destruct (handler_panic ci) as [r|]; simpl;
    rewrite list_lookup_insert_eq by assumption; simpl;
    unfold chan_pending; rewrite Hrx, Hb; simpl;
    rewrite list_insert_insert_eq, Hcap, Hcl, Hopen;
    destruct w; unfold rested; simpl; by rewrite ?app_nil_r.
Qed.


(** The three steps of a synchronous call on an idle server: the call
    is posted and the caller finds its reply slot empty; the loop takes
    its turn; the reply is in the slot. *)
Lemma sync_call_steps (w : World) (k : nat) (s : Server) (id : string)
    (f : func) (args : list value) :
  servers w !! k = Some s →
  idle (ChanCall s) = true →
  functions s !! id = Some f →
  let c := transient k w in
  let ci := mkCallInfo f args (Some (length (rets w))) VNil in
  ∃ w1 w2,
    Client_post c id args (kind_of f) (set_rets w (rets w ++ transient_chans))
    = (Ok (inl tt), w1)
    ∧ recv_ret (chanSyncRet c) w1 = (Block, w1)
    ∧ Run_turn k w1 = (Ok tt, w2)
    ∧ recv_ret (chanSyncRet c) w2 = (Ok (reply_of ci), after_sync k s ci w).
Proof.
  intros Hs Hidle Hf c ci.
  assert (k < length (servers w))%nat as Hk by (by eapply lookup_lt_Some).
  unfold idle in Hidle. apply andb_true_iff in Hidle as [Hroom Hempty].
  destruct (chan_pending (ChanCall s)) eqn:Hp; [|discriminate].
  destruct (chan_send_room ci _ _ Hroom) as (c' & Hsend & Hp' & _ & Hcap & Hcl).
  rewrite Hp in Hp'. simpl in Hp'.
  set (w0 := set_rets w (rets w ++ transient_chans)).
  set (s1 := mkServer (functions s) c').
  set (w1 := set_servers w0 (<[k:=s1]> (servers w0))).
  assert (rets w1 !! length (rets w) = Some (Chan [] 1 false Away)) as Hslot.
  { simpl. rewrite lookup_app_r by lia. by rewrite Nat.sub_diag. }
  exists w1. eexists. split; [|split; [|split]].
  - by apply (Client_post_accepted c k s id f args c' w0).
  - unfold recv_ret. simpl chanSyncRet. by rewrite Hslot.
  - apply (Run_turn_serves k (length (rets w)) s1 ci (Chan [] 1 false Away)
             (Chan [reply_of ci] 1 false Away) w1); try done.
    simpl. by apply list_lookup_insert_eq.
  - unfold recv_ret. simpl chanSyncRet. simpl rets.
    rewrite list_lookup_insert_eq by (rewrite length_app; simpl; lia). simpl.
    f_equal. unfold after_sync.
    rewrite !list_insert_insert_eq.
    unfold rested. simpl. rewrite Hcap.
    subst w1 w0 s1. destruct w.
    unfold set_rets, set_logged, set_servers, exec_lines, panic_line. simpl.
    rewrite insert_app_r_alt by lia. by rewrite Nat.sub_diag.
Qed.

Lemma sync_Call0 (w : World) (k : nat) (s : Server) (id : string)
    (f : func) (args : list value) :
  servers w !! k = Some s → idle (ChanCall s) = true →
  functions s !! id = Some f → kind_of f = 0 →
  let ci := mkCallInfo f args (Some (length (rets w))) VNil in
  sync k (Server_Call0 k id args) (Client_await0 (transient k w)) w
  = (Ok (ri_err (reply_of ci)), after_sync k s ci w).
Proof.
  intros Hs Hidle Hf Hkind ci.
  destruct (sync_call_steps w k s id f args Hs Hidle Hf)
    as (w1 & w2 & Hpost & Hwait & Hturn & Hrecv).
  rewrite Hkind in Hpost.
  unfold sync, Server_Call0, Client_Call0, bindM at 1. rewrite Server_Open_0.
  unfold bindM at 1. fold (transient k w). rewrite Hpost.
  unfold Client_await0 at 1, bindM at 1. rewrite Hwait, Hturn.
  unfold Client_await0, bindM. by rewrite Hrecv.
Qed.

Lemma sync_Call1 (w : World) (k : nat) (s : Server) (id : string)
    (f : func) (args : list value) :
  servers w !! k = Some s → idle (ChanCall s) = true →
  functions s !! id = Some f → kind_of f = 1 →
  let ci := mkCallInfo f args (Some (length (rets w))) VNil in
  sync k (Server_Call1 k id args) (Client_await1 (transient k w)) w
  = (Ok (ri_ret (reply_of ci), ri_err (reply_of ci)), after_sync k s ci w).
Proof.
  intros Hs Hidle Hf Hkind ci.
  destruct (sync_call_steps w k s id f args Hs Hidle Hf)
    as (w1 & w2 & Hpost & Hwait & Hturn & Hrecv).
  rewrite Hkind in Hpost.
  unfold sync, Server_Call1, Client_Call1, bindM at 1. rewrite Server_Open_0.
  unfold bindM at 1. fold (transient k w). rewrite Hpost.
  unfold Client_await1 at 1, bindM at 1. rewrite Hwait, Hturn.
  unfold Client_await1, bindM. by rewrite Hrecv.
Qed.

Lemma sync_CallN (w : World) (k : nat) (s : Server) (id : string)
    (f : func) (args : list value) :
  servers w !! k = Some s → idle (ChanCall s) = true →
  functions s !! id = Some f → kind_of f = 2 →
  let ci := mkCallInfo f args (Some (length (rets w))) VNil in
  sync k (Server_CallN k id args) (Client_awaitN (transient k w)) w
  = (vs <- assert (ri_ret (reply_of ci)) ;; retM (vs, ri_err (reply_of ci)))
      (after_sync k s ci w).
Proof.
  intros Hs Hidle Hf Hkind ci.
  destruct (sync_call_steps w k s id f args Hs Hidle Hf)
    as (w1 & w2 & Hpost & Hwait & Hturn & Hrecv).
  rewrite Hkind in Hpost.
  unfold sync, Server_CallN, Client_CallN, bindM at 1. rewrite Server_Open_0.
  unfold bindM at 1. fold (transient k w). rewrite Hpost.
  unfold Client_awaitN at 1, bindM at 1. rewrite Hwait, Hturn.
  unfold Client_awaitN. unfold bindM at 1. by rewrite Hrecv.
Qed.

Lemma idle_rested (s : Server) : idle (ChanCall s) = true → idle (ChanCall (rested s)) = true.
Proof.
  unfold idle, room_for, chan_pending, rested. simpl. intros H.
  apply andb_true_iff in H as [H Hp]. apply andb_true_iff in H as [_ H].
  rewrite andb_true_r. apply Z.leb_le.
  destruct (rx (ChanCall s)); simpl in *.
  - apply Z.leb_le in H. lia.
  - destruct (buf (ChanCall s)); [|discriminate]. apply Z.leb_le in H. lia.
  - discriminate.
Qed.

(** C4. A registered function that panics does not take the server
    down.  The synchronous call of its kind returns, with the panic
    value as the error; and a [Call1] made afterwards on a function
    that works returns the value of that function and a nil error. *)
Theorem panic_is_returned_and_server_goes_on (w : World) (k : nat) (s : Server)
    (id : string) (f : func) (args : list value) (r : panicval)
    (id1 : string) (g : list value → ran value) (args1 : list value) (v : value) :
  servers w !! k = Some s →
  idle (ChanCall s) = true →
  functions s !! id = Some f →
  call_panic f args = Some r →
  functions s !! id1 = Some (F1 g) →
  g args1 = Returns v →
  ∃ w1 w2,
    match f with
    | F0 _ =>
      sync k (Server_Call0 k id args) (Client_await0 (transient k w)) w
      = (Ok (Some (fmt_v r)), w1)
    | F1 _ =>
      sync k (Server_Call1 k id args) (Client_await1 (transient k w)) w
      = (Ok (VNil, Some (fmt_v r)), w1)
    | FN _ =>
      sync k (Server_CallN k id args) (Client_awaitN (transient k w)) w
      = (Ok ([], Some (fmt_v r)), w1)
    end
    ∧ sync k (Server_Call1 k id1 args1) (Client_await1 (transient k w1)) w1
      = (Ok (v, None), w2).
Proof.
  intros Hs Hidle Hf Hpanic Hg Hv.
  assert (k < length (servers w))%nat as Hk by (by eapply lookup_lt_Some).
  set (ci := mkCallInfo f args (Some (length (rets w))) VNil).
  set (w1 := after_sync k s ci w).
  assert (servers w1 !! k = Some (rested s)) as Hs1.
  { simpl. by apply list_lookup_insert_eq. }
  exists w1. eexists. split.
  - unfold call_panic, handler_panic in Hpanic. simpl in Hpanic.
    destruct f as [h|h|h].
    + rewrite (sync_Call0 w k s id (F0 h) args) by done.
      unfold reply_of. simpl. destruct (h args); by simplify_eq.
    + rewrite (sync_Call1 w k s id (F1 h) args) by done.
      unfold reply_of. simpl. destruct (h args); by simplify_eq.
    + rewrite (sync_CallN w k s id (FN h) args) by done.
      unfold reply_of. simpl. destruct (h args); by simplify_eq.
  - rewrite (sync_Call1 w1 k (rested s) id1 (F1 g) args1);
      [|done|by apply idle_rested|done|done].
    unfold reply_of. simpl. rewrite Hv. reflexivity.
Qed.

Lemma panic_is_returned_and_server_goes_on_witness :
  ∃ w1 w2,
    sync 0 (Server_Call1 0 "div" [VInt 0]) (Client_await1 (transient 0 div_world))
      div_world
    = (Ok (VNil, Some "runtime error: integer divide by zero"), w1)
    ∧ sync 0 (Server_Call1 0 "div" [VInt 4]) (Client_await1 (transient 0 w1)) w1
      = (Ok (VInt 8, None), w2).
Proof.
  apply (panic_is_returned_and_server_goes_on div_world 0
           (mkServer (<["div":=div]> ∅) (Chan [] 0 false Parked))
           "div" div [VInt 0] (PErr "runtime error: integer divide by zero")
           "div" div_body [VInt 4] (VInt 8)); reflexivity.
Defined.

(** ** The counter of the client *)

Lemma chan_send_Sent {A} (x : A) (c c' : chan A) :
  chan_send x c = Sent c' →
  chan_pending c' ≡ₚ x :: chan_pending c
  ∧ closed c = false ∧ closed c' = false ∧ cap c' = cap c.
Proof.
  unfold chan_send, chan_pending.
  destruct (closed c); [discriminate|].
  destruct (rx c);
    repeat match goal with
           | |- context [if ?b then _ else _] => destruct b
           end;
    intros H; simplify_eq; simpl; repeat split.
  - symmetry. apply Permutation_cons_append.
  - reflexivity.
  - etrans; [|apply Permutation_swap]. constructor.
    symmetry. apply Permutation_cons_append.
Qed.

Lemma chan_send_accepts {A} (x : A) (c : chan A) :
  closed c = false →
  Z.of_nat (length (chan_pending c)) < cap c →
  ∃ c', chan_send x c = Sent c'.
Proof.
  unfold chan_send, chan_pending. intros Hc H. rewrite Hc.
  destruct (rx c); simpl in H; rewrite ?length_app in H; simpl in H;
    try (destruct (Z.ltb_spec (Z.of_nat (length (buf c))) (cap c)); [|lia]);
    eexists; reflexivity.
Qed.

Lemma chan_recv_Some {A} (x : A) (c c' : chan A) :
  chan_recv c = Some (x, c') →
  chan_pending c = x :: chan_pending c'
  ∧ closed c' = closed c ∧ cap c' = cap c.
Proof.
  unfold chan_recv, chan_pending.
  destruct (rx c); [destruct (buf c)|destruct (buf c)|];
    intros H; simplify_eq; by simpl.
Qed.

Lemma inflight_insert (a k : nat) (s s' : Server) (ss : list Server) :
  ss !! k = Some s →
  (sum_list (map (waiting a) (<[k:=s']> ss)) + waiting a s
   = sum_list (map (waiting a) ss) + waiting a s')%nat.
Proof.
  revert k. induction ss as [|s0 ss IH]; intros [|k] H; simpl in *; simplify_eq.
  - lia.
  - specialize (IH k H). lia.
Qed.

Lemma inflight_zero (a : nat) (ss : list Server) :
  (∀ k s ci, ss !! k = Some s → ci ∈ chan_pending (ChanCall s) →
             ci_chanRet ci ≠ Some a) →
  sum_list (map (waiting a) ss) = 0%nat.
Proof.
  induction ss as [|s ss IH]; intros H; [reflexivity|]. simpl.
  rewrite IH by (intros k s' ci; apply (H (S k))).
  unfold waiting, owed.
  assert (∀ q : list CallInfo,
            (∀ ci, ci ∈ q → ci_chanRet ci ≠ Some a) →
            filter (λ ci, ci_chanRet ci = Some a) q = []) as Hnil.
  { induction q as [|ci q IHq]; intros Hq; [reflexivity|].
    rewrite filter_cons_False by (apply Hq; left).
    apply IHq. intros ci' Hin. apply Hq. by right. }
  rewrite Hnil; [reflexivity|].
  intros ci Hin. by apply (H 0%nat s ci).
Qed.

Section Counter.

(** The async reply queue of the client and its capacity. *)
Variables (a : nat) (l : Z).

Lemma accounted_frame (P : Z) (w w' : World) :
  servers w' = servers w → rets w' !! a = rets w !! a →
  accounted a l P w → accounted a l P w'.
Proof.
  intros Hs Hr (ca & H1 & H2 & H3 & H4).
  exists ca. unfold inflight. rewrite Hs, Hr. done.
Qed.

Lemma accounted_nonneg (P : Z) (w : World) : accounted a l P w → 0 ≤ P.
Proof. intros (ca & _ & _ & _ & ->). lia. Qed.

(** A reply arrives in the queue. *)
Lemma accounted_reply (P : Z) (w : World) (ri : RetInfo) :
  accounted a l (P - 1) w → P ≤ l →
  ∃ ca ca', rets w !! a = Some ca
            ∧ chan_send ri ca = Sent ca'
            ∧ accounted a l P (set_rets w (<[a:=ca']> (rets w))).
Proof.
  intros (ca & Ha & Hopen & Hcap & HP) Hle.
  destruct (chan_send_accepts ri ca Hopen) as [ca' Hsend]; [lia|].
  destruct (chan_send_Sent _ _ _ Hsend) as (Hperm & _ & Hopen' & Hcap').
  exists ca, ca'. repeat split; try assumption.
  exists ca'. simpl.
  rewrite list_lookup_insert_eq by (by eapply lookup_lt_Some).
  repeat split; try congruence.
  rewrite Hperm. simpl. unfold inflight in *. simpl. lia.
Qed.

Lemma Server_ret_foreign (ci : CallInfo) (ri : RetInfo) (w : World) :
  ci_chanRet ci ≠ Some a →
  servers (Server_ret ci ri w).2 = servers w
  ∧ rets (Server_ret ci ri w).2 !! a = rets w !! a.
Proof.
  intros Hne. rewrite Server_ret_cases.
  destruct (ci_chanRet ci) as [ch|]; [|done].
  destruct (rets w !! ch) as [c0|]; [|done].
  destruct (chan_send _ c0); try done. simpl.
  split; [done|]. apply list_lookup_insert_ne. congruence.
Qed.

Lemma Server_ret_ours (P : Z) (ci : CallInfo) (ri : RetInfo) (w : World) :
  ci_chanRet ci = Some a →
  accounted a l (P - 1) w → P ≤ l →
  (Server_ret ci ri w).1 = Ok None ∧ accounted a l P (Server_ret ci ri w).2.
Proof.
  intros Hch Hacc Hle. rewrite Server_ret_cases, Hch.
  destruct (accounted_reply P w (mkRetInfo (ri_ret ri) (ri_err ri) (ci_cb ci))
              Hacc Hle) as (ca & ca' & Ha & Hsend & Hacc').
  by rewrite Ha, Hsend.
Qed.

Lemma Server_exec_foreign (ci : CallInfo) (w : World) :
  ci_chanRet ci ≠ Some a →
  servers (Server_exec ci w).2 = servers w
  ∧ rets (Server_exec ci w).2 !! a = rets w !! a.
Proof.
  intros Hne. rewrite Server_exec_cases.
  destruct (ci_chanRet ci) as [ch|]; [|done].
  destruct (rets w !! ch) as [c0|]; [|done].
  destruct (chan_send _ c0); try done. simpl.
  split; [done|]. apply list_lookup_insert_ne. congruence.
Qed.

Lemma Server_exec_ours (P : Z) (ci : CallInfo) (w : World) :
  ci_chanRet ci = Some a →
  accounted a l (P - 1) w → P ≤ l →
  accounted a l P (Server_exec ci w).2.
Proof.
  intros Hch Hacc Hle. rewrite Server_exec_cases, Hch.
  destruct (accounted_reply P w (reply_of ci) Hacc Hle)
    as (ca & ca' & Ha & Hsend & Hacc').
  by rewrite Ha, Hsend.
Qed.

Lemma Server_Exec_world (ci : CallInfo) (w : World) :
  servers (Server_Exec ci w).2 = servers (Server_exec ci w).2
  ∧ rets (Server_Exec ci w).2 = rets (Server_exec ci w).2.
Proof.
  unfold Server_Exec, bindM.
  destruct (Server_exec ci w) as [[[e|]| | |] w']; done.
Qed.

(** The queue of server [k] changes by [d] calls of the client. *)
Lemma accounted_store (P d : Z) (w : World) (k : nat) (s s' : Server) :
  servers w !! k = Some s →
  Z.of_nat (waiting a s') = Z.of_nat (waiting a s) + d →
  accounted a l P w →
  accounted a l (P + d) (set_servers w (<[k:=s']> (servers w))).
Proof.
  intros Hs Hd (ca & Ha & Hopen & Hcap & HP).
  pose proof (inflight_insert a k s s' (servers w) Hs) as Hsum.
  exists ca. repeat split; try assumption.
  unfold inflight in *. simpl. lia.
Qed.

Lemma waiting_cons (s s' : Server) (ci : CallInfo) :
  chan_pending (ChanCall s) ≡ₚ ci :: chan_pending (ChanCall s') →
  Z.of_nat (waiting a s) = Z.of_nat (waiting a s') + ours a ci.
Proof.
  intros Hperm. unfold waiting, owed, ours. rewrite Hperm.
  destruct (decide (ci_chanRet ci = Some a)).
  - rewrite filter_cons_True by assumption. simpl. lia.
  - rewrite filter_cons_False by assumption. lia.
Qed.

Lemma Server_ret_servers (ci : CallInfo) (ri : RetInfo) (w : World) :
  servers (Server_ret ci ri w).2 = servers w.
Proof.
  rewrite Server_ret_cases.
  destruct (ci_chanRet ci) as [ch|]; [|done].
  destruct (rets w !! ch) as [c0|]; [|done].
  by destruct (chan_send _ c0).
Qed.

Lemma Server_Exec_accounted (P : Z) (ci : CallInfo) (w : World) :
  accounted a l (P - ours a ci) w → P ≤ l → accounted a l P (Server_Exec ci w).2.
Proof.
  intros Hacc Hle. unfold ours in Hacc.
  destruct (Server_Exec_world ci w) as [Hs Hr].
  destruct (decide (ci_chanRet ci = Some a)) as [Hch|Hch].
  - eapply accounted_frame; [exact Hs|by rewrite Hr|].
    by apply Server_exec_ours.
  - destruct (Server_exec_foreign ci w Hch) as [Hs' Hr'].
    eapply accounted_frame; [by rewrite Hs|by rewrite Hr|].
    by replace P with (P - 0) by lia.
Qed.

Lemma Run_case_ChanCall_accounted (P : Z) (k : nat) (w : World) :
  accounted a l P w → P ≤ l → accounted a l P (Run_case_ChanCall k w).2.
Proof.
  intros Hacc Hle. unfold Run_case_ChanCall, load_server, store_server, bindM.
  destruct (servers w !! k) as [s|] eqn:Hs; [|done].
  destruct (chan_recv (ChanCall s)) as [[ci c']|] eqn:Hrecv; [|done].
  destruct (chan_recv_Some _ _ _ Hrecv) as (Hp & _ & _).
  apply Server_Exec_accounted; [|assumption].
  replace (P - ours a ci) with (P + - ours a ci) by lia.
  apply (accounted_store P _ w k s); [assumption| |assumption].
  rewrite (waiting_cons s (mkServer (functions s) c') ci) by (by rewrite Hp).
  lia.
Qed.

Lemma Run_select_idle_accounted (P : Z) (k : nat) (w : World) :
  accounted a l P w → accounted a l P (Run_select_idle k w).2.
Proof.
  intros Hacc. unfold Run_select_idle, load_server, store_server, bindM.
  destruct (servers w !! k) as [s|] eqn:Hs; [|done].
  destruct (chan_pending (ChanCall s)) eqn:Hp; [|done]. simpl.
  replace P with (P + 0) by lia.
  apply (accounted_store P 0 w k s); [assumption| |assumption].
  unfold waiting, chan_pending in *. simpl.
  apply app_eq_nil in Hp as [Hrx ->].
  destruct (rx (ChanCall s)); [| |discriminate]; simpl; lia.
Qed.

Lemma Server_Close_range_accounted (P : Z) (k : nat) (q : list CallInfo) :
  ∀ (w : World) (s : Server),
    servers w !! k = Some s → buf (ChanCall s) = q →
    accounted a l P w → P ≤ l →
    accounted a l P (Server_Close_range k q w).2.
Proof.
  induction q as [|ci q IH]; intros w s Hs Hq Hacc Hle; [done|].
  simpl. unfold load_server, store_server, bindM at 1. rewrite Hs.
  unfold bindM at 1. unfold bindM at 1.
  set (s1 := mkServer (functions s)
               (Chan q (cap (ChanCall s)) (closed (ChanCall s)) (rx (ChanCall s)))).
  set (w1 := set_servers w (<[k:=s1]> (servers w))).
  assert (accounted a l (P - ours a ci) w1) as Hacc1.
  { replace (P - ours a ci) with (P + - ours a ci) by lia.
    apply (accounted_store P _ w k s); [assumption| |assumption].
    rewrite (waiting_cons s s1 ci); [lia|].
    unfold chan_pending. simpl. rewrite Hq.
    by rewrite Permutation_middle. }
  assert (servers w1 !! k = Some s1) as Hs1.
  { simpl. apply list_lookup_insert_eq. by eapply lookup_lt_Some. }
  pose proof (Server_ret_servers ci server_closed w1) as Hsrv.
  assert (accounted a l P (Server_ret ci server_closed w1).2) as Hacc2.
  { unfold ours in Hacc1.
    destruct (decide (ci_chanRet ci = Some a)) as [Hch|Hch].
    - by apply Server_ret_ours.
    - destruct (Server_ret_foreign ci server_closed w1 Hch) as [Hs' Hr'].
      eapply accounted_frame; [exact Hs'|exact Hr'|].
      by replace P with (P - 0) by lia. }
  destruct (Server_ret ci server_closed w1) as [[e| | |] w2]; try exact Hacc2.
  simpl in *. apply (IH w2 s1); try done. by rewrite Hsrv.
Qed.

Lemma Server_Close_accounted (P : Z) (k : nat) (w : World) :
  accounted a l P w → P ≤ l → accounted a l P (Server_Close k w).2.
Proof.
  intros Hacc Hle. unfold Server_Close, load_server, store_server, bindM at 1.
  destruct (servers w !! k) as [s|] eqn:Hs; [|done].
  destruct (closed (ChanCall s)) eqn:Hcl; [done|].
  unfold bindM at 1.
  set (s1 := mkServer (functions s)
               (Chan (buf (ChanCall s)) (cap (ChanCall s)) true (rx (ChanCall s)))).
  apply (Server_Close_range_accounted P k _ _ s1); try done.
  - simpl. apply list_lookup_insert_eq. by eapply lookup_lt_Some.
  - replace P with (P + 0) by lia.
    apply (accounted_store P 0 w k s); [done| |done].
    unfold waiting, chan_pending. simpl. lia.
Qed.

(** What [send_call] does. *)
Lemma send_call_accounted (P : Z) (k : nat) (ci : CallInfo) (w : World) :
  accounted a l P w →
  ((send_call k ci w).1 = Ok true ∧ accounted a l (P + ours a ci) (send_call k ci w).2)
  ∨ ((send_call k ci w).1 ≠ Ok true ∧ (send_call k ci w).2 = w).
Proof.
  intros Hacc. unfold send_call, load_server, store_server, bindM.
  destruct (servers w !! k) as [s|] eqn:Hs; [|by right].
  destruct (chan_send ci (ChanCall s)) as [c'| |] eqn:Hsend; [|by right..].
  left. split; [done|]. simpl.
  destruct (chan_send_Sent _ _ _ Hsend) as (Hperm & _).
  apply (accounted_store P _ w k s); [assumption| |assumption].
  by rewrite (waiting_cons (mkServer (functions s) c') s ci Hperm).
Qed.

Lemma Server_Go_accounted (P : Z) (k : nat) (id : string)
    (args : list value) (w : World) :
  accounted a l P w → accounted a l P (Server_Go k id args w).2.
Proof.
  intros Hacc. unfold Server_Go, load_server, bindM at 1.
  destruct (servers w !! k) as [s|] eqn:Hs; [|done].
  destruct (functions s !! id) as [f|]; [|done].
  unfold recovering, bindM.
  destruct (send_call_accounted P k (mkCallInfo f args None VNil) w Hacc)
    as [[H1 H2]|[H1 H2]].
  - destruct (send_call k _ w) as [r w']. simpl in *. subst.
    unfold ours in H2. simpl in H2.
    by replace (P + 0) with P in H2 by lia.
  - destruct (send_call k _ w) as [[[]| | |] w']; simpl in *; by subst.
Qed.

Lemma execCb_world (ri : RetInfo) (w : World) :
  (execCb ri w).1 = Ok tt
  ∧ servers (execCb ri w).2 = servers w
  ∧ rets (execCb ri w).2 = rets w.
Proof.
  unfold execCb, invoke, assert, recovering, bindM, panic, retM, get, log_Error.
  destruct (ri_cb ri) as [| | | | |k]; try done.
  destruct (cb_shape k); simpl.
  - by destruct (cb_panics k).
  - by destruct (cb_panics k).
  - destruct (ri_ret ri); simpl; try done; by destruct (cb_panics k).
Qed.

Lemma Client_f_cases (c : Client) (id : string) (n : Z) (w : World) :
  (∃ r, Client_f c id n w = (Ok r, w)) ∨ (∃ p, Client_f c id n w = (Panic p, w)).
Proof.
  unfold Client_f, load_server, is_kind, bindM, retM, panic.
  destruct (c_s c) as [k|]; [|by left; eexists].
  destruct (servers w !! k) as [s|]; [|by right; eexists].
  destruct (functions s !! id) as [f|]; [|by left; eexists].
  destruct (n =? 0); [destruct f; by left; eexists|].
  destruct (n =? 1); [destruct f; by left; eexists|].
  destruct (n =? 2); [destruct f; by left; eexists|].
  by right; eexists.
Qed.

(** A non-blocking [call] either puts the call in the queue of the
    attached server or reports an error. *)
Lemma Client_call_cases (c : Client) (ci : CallInfo) (w : World) :
  (∃ k s c', c_s c = Some k ∧ servers w !! k = Some s
             ∧ chan_send ci (ChanCall s) = Sent c'
             ∧ Client_call c ci false w
               = (Ok None,
                  set_servers w (<[k:=mkServer (functions s) c']> (servers w))))
  ∨ (∃ e, Client_call c ci false w = (Ok (Some e), w)).
Proof.
  unfold Client_call, send_call, load_server, store_server, recovering, bindM,
    retM, panic, as_error, nil_deref, send_on_closed.
  destruct (c_s c) as [k|]; [|by right; eexists].
  destruct (servers w !! k) as [s|] eqn:Hs; [|by right; eexists].
  destruct (chan_send ci (ChanCall s)) as [c'| |] eqn:Hsend.
  - left. by exists k, s, c'.
  - by right; eexists.
  - by right; eexists.
Qed.

Lemma send_ret_accounted (P : Z) (ri : RetInfo) (w : World) :
  accounted a l P w → P < l →
  ∃ w', send_ret a ri w = (Ok tt, w')
        ∧ accounted a l (P + 1) w' ∧ called w' = called w.
Proof.
  intros Hacc Hlt.
  destruct (accounted_reply (P + 1) w ri) as (ca & ca' & Ha & Hsend & Hacc');
    [by replace (P + 1 - 1) with P by lia|lia|].
  eexists. unfold send_ret, store_ret. rewrite Ha, Hsend. done.
Qed.

Lemma asynCall_accounted (P : Z) (c : Client) (id : string)
    (args : list value) (cb : value) (n : Z) (w : World) :
  ChanAsynRet c = a → accounted a l P w → P < l →
  (∃ w', Client_asynCall c id args cb n w = (Ok tt, w')
         ∧ accounted a l (P + 1) w' ∧ called w' = called w)
  ∨ (∃ p, Client_asynCall c id args cb n w = (Panic p, w)).
Proof.
  intros Hc Hacc Hlt. unfold Client_asynCall, bindM. rewrite Hc.
  destruct (Client_f_cases c id n w) as [[r ->]|[p ->]]; [|by right; eexists].
  destruct r as [f|e]; [|left; by apply send_ret_accounted].
  destruct (Client_call_cases c (mkCallInfo f args (Some a) cb) w)
    as [(k & s & c' & Hk & Hs & Hsend & ->)|[e ->]];
    [|left; by apply send_ret_accounted].
  left. eexists. split; [reflexivity|]. split; [|done].
  apply (accounted_store P 1 w k s); [assumption| |assumption].
  destruct (chan_send_Sent _ _ _ Hsend) as (Hperm & _).
  rewrite (waiting_cons (mkServer (functions s) c') s _ Hperm).
  unfold ours. simpl. by rewrite decide_True.
Qed.

Lemma AsynCall_accounted (c : Client) (id : string) (_args : list value)
    (w : World) :
  ChanAsynRet c = a → accounted a l (pendingAsynCall c) w → pendingAsynCall c ≤ l →
  match Client_AsynCall c id _args w with
  | (Ok c', w') =>
    ChanAsynRet c' = a
    ∧ accounted a l (pendingAsynCall c') w'
    ∧ pendingAsynCall c' ≤ l
    ∧ ((length (called w') = length (called w)
        ∧ pendingAsynCall c' = pendingAsynCall c + 1)
       ∨ (length (called w') = S (length (called w))
          ∧ pendingAsynCall c' = pendingAsynCall c))
  | (_, w') => w' = w
  end.
Proof.
  intros Hc Hacc Hle. unfold Client_AsynCall.
  destruct (last _args) as [cb|]; [|done].
  unfold bindM at 1.
  destruct cb as [| | | | |k]; try done.
  unfold retM at 1. unfold bindM at 1. unfold get at 1.
  assert (cap_ret (ChanAsynRet c) w = l) as ->.
  { destruct Hacc as (ca & Ha & _ & Hcap & _).
    unfold cap_ret. by rewrite Hc, Ha. }
  destruct (Z.leb_spec l (pendingAsynCall c)) as [Hfull|Hroom].
  - destruct (execCb_too_many k w) as (w' & Hcb & Hs & Hr & Hcalled).
    unfold bindM. rewrite Hcb. unfold retM.
    repeat split; try assumption.
    + eapply accounted_frame; [exact Hs|by rewrite Hr|assumption].
    + right. split; [|done]. rewrite Hcalled, length_app. simpl. lia.
  - unfold bindM.
    destruct (asynCall_accounted (pendingAsynCall c) c id (removelast _args)
                (VCb k)
                match cb_shape k with ShErr => 0 | ShValErr => 1 | ShValsErr => 2 end
                w Hc Hacc Hroom)
      as [(w' & -> & Hacc' & Hcalled)|[p ->]]; [|done].
    unfold retM. simpl. repeat split; try assumption; [lia|].
    left. by rewrite Hcalled.
Qed.

Lemma Cb_accounted (c : Client) (w : World) :
  ChanAsynRet c = a → accounted a l (pendingAsynCall c) w →
  match Run_case_ChanAsynRet c w with
  | (Ok c', w') =>
    ChanAsynRet c' = a
    ∧ accounted a l (pendingAsynCall c') w'
    ∧ pendingAsynCall c' = pendingAsynCall c - 1
  | (_, w') => w' = w
  end.
Proof.
  intros Hc (ca & Ha & Hopen & Hcap & HP).
  unfold Run_case_ChanAsynRet, recv_ret, Client_Cb, bindM. rewrite Hc, Ha.
  destruct (chan_recv ca) as [[ri ca']|] eqn:Hrecv; [|done].
  destruct (chan_recv_Some _ _ _ Hrecv) as (Hp & Hcl & Hcap').
  destruct (execCb_world ri (set_rets w (<[a:=ca']> (rets w))))
    as (Hok & Hs & Hr).
  destruct (execCb ri (set_rets w (<[a:=ca']> (rets w)))) as [r w2].
  simpl in Hok, Hs, Hr. subst r.
  unfold retM. simpl. repeat split; try done.
  apply (accounted_frame _ (set_rets w (<[a:=ca']> (rets w))));
    [exact Hs|by rewrite Hr|].
  exists ca'. simpl.
  rewrite list_lookup_insert_eq by (by eapply lookup_lt_Some).
  repeat split; try congruence.
  rewrite Hp in HP. simpl in HP. unfold inflight in *. simpl. lia.
Qed.

Lemma step_counted (o : op) (σ : sys) : counted a l σ → counted a l (step o σ).
Proof.
  intros (Hc & Hacc & Hle & Hadm). destruct o as [srv|id _args| |k|k|k|k id args];
    unfold step, counted.
  - done.
  - pose proof (AsynCall_accounted (sys_client σ) id _args (sys_world σ)
                  Hc Hacc Hle) as H.
    destruct (Client_AsynCall (sys_client σ) id _args (sys_world σ))
      as [[c'| | |] w']; simpl; try (by subst w').
    destruct H as (Hc' & Hacc' & Hle' & [[Hcalled Hp]|[Hcalled Hp]]).
    + rewrite bool_decide_eq_true_2 by assumption. simpl.
      repeat split; try assumption. lia.
    + rewrite bool_decide_eq_false_2 by lia. simpl.
      repeat split; try assumption. lia.
  - pose proof (Cb_accounted (sys_client σ) (sys_world σ) Hc Hacc) as H.
    destruct (Run_case_ChanAsynRet (sys_client σ) (sys_world σ))
      as [[c'| | |] w']; simpl; try (by subst w').
    destruct H as (Hc' & Hacc' & Hp).
    repeat split; try assumption; lia.
  - simpl. repeat split; try assumption.
    by apply Run_case_ChanCall_accounted.
  - simpl. repeat split; try assumption.
    by apply Run_select_idle_accounted.
  - simpl. repeat split; try assumption.
    by apply Server_Close_accounted.
  - simpl. repeat split; try assumption.
    by apply Server_Go_accounted.
Qed.

Lemma run_counted (ops : list op) : ∀ σ, counted a l σ → counted a l (run ops σ).
Proof.
  induction ops as [|o ops IH]; intros σ Hσ; [done|].
  simpl. apply IH. by apply step_counted.
Qed.

End Counter.

Lemma NewClient_counted (w0 : World) (l : Z) :
  0 ≤ l → wf w0 →
  NewClient l w0
  = (Ok (mkClient None (length (rets w0)) (S (length (rets w0))) 0),
     set_rets w0 (rets w0 ++ [Chan [] 1 false Away; Chan [] l false Away]))
  ∧ counted (S (length (rets w0))) l
      (mkSys (mkClient None (length (rets w0)) (S (length (rets w0))) 0)
         (set_rets w0 (rets w0 ++ [Chan [] 1 false Away; Chan [] l false Away]))
         0 0 0).
Proof.
  intros Hl Hwf. split.
  - unfold NewClient, make_chan, bindM, retM. simpl.
    destruct (Z.ltb_spec l 0); [lia|reflexivity].
  - unfold counted. simpl. repeat split; try lia.
    exists (Chan [] l false Away). simpl.
    rewrite lookup_app_r by lia.
    replace (S (length (rets w0)) - length (rets w0))%nat with 1%nat by lia.
    repeat split. unfold inflight. simpl.
    rewrite inflight_zero; [reflexivity|].
    intros k s ci Hs Hin Hch.
    specialize (Hwf k s ci _ Hs Hin Hch). lia.
Qed.

(** C3, as the code has it. Take a client made by [NewClient l] and let
    anything happen: async calls, replies taken off the queue and given
    to [Cb], servers executing, parking and closing, fire-and-forget
    calls of others.  At every point the counter is between 0 and [l],
    the capacity of the async reply queue.  It is the number of
    admitted calls whose [Cb] has not run yet, where a call is admitted
    when [AsynCall] does not reject it on the spot: whether the call was
    enqueued on a server or, the enqueue having failed, answered by a
    synthetic reply.  Each such call is waiting in a server or has its
    reply waiting in the queue. *)
Theorem pending_counts_admitted_calls (w0 : World) (l : Z) (ops : list op) :
  0 ≤ l → wf w0 →
  ∃ c0 w1,
    NewClient l w0 = (Ok c0, w1)
    ∧ let σ := run ops (mkSys c0 w1 0 0 0) in
      let c := sys_client σ in
      ChanAsynRet c = ChanAsynRet c0
      ∧ cap_ret (ChanAsynRet c) (sys_world σ) = l
      ∧ 0 ≤ pendingAsynCall c ≤ l
      ∧ pendingAsynCall c = admitted σ - acked σ
      ∧ pendingAsynCall c
        = Z.of_nat (inflight (ChanAsynRet c) (sys_world σ))
          + Z.of_nat (buffered (ChanAsynRet c) (sys_world σ)).
Proof.
  intros Hl Hwf.
  destruct (NewClient_counted w0 l Hl Hwf) as [Hnew Hinit].
  eexists _, _. split; [exact Hnew|].
  apply (run_counted _ _ ops) in Hinit.
  destruct Hinit as (Hc & Hacc & Hle & Hadm).
  pose proof (accounted_nonneg _ _ _ _ Hacc) as Hge.
  destruct Hacc as (ca & Ha & Hopen & Hcap & HP).
  simpl. rewrite Hc. unfold cap_ret, buffered. rewrite Ha.
  repeat split; try assumption.
Qed.

Lemma wf_one_server : wf one_server.
Proof.
  intros [|k] s ci ch Hs Hin Hch; simpl in Hs; simplify_eq.
  simpl in Hin. by apply elem_of_nil in Hin.
Qed.

Lemma pending_counts_admitted_calls_witness :
  ∃ c0 w1,
    NewClient 2 one_server = (Ok c0, w1)
    ∧ let σ := run some_ops (mkSys c0 w1 0 0 0) in
      let c := sys_client σ in
      ChanAsynRet c = ChanAsynRet c0
      ∧ cap_ret (ChanAsynRet c) (sys_world σ) = 2
      ∧ 0 ≤ pendingAsynCall c ≤ 2
      ∧ pendingAsynCall c = admitted σ - acked σ
      ∧ pendingAsynCall c
        = Z.of_nat (inflight (ChanAsynRet c) (sys_world σ))
          + Z.of_nat (buffered (ChanAsynRet c) (sys_world σ)).
Proof.
  apply (pending_counts_admitted_calls one_server 2 some_ops).
  - lia.
  - exact wf_one_server.
Defined.

(** A call whose enqueue fails is counted too.  The server does not
    take the call (its queue has no room and its loop is busy), the
    client puts a channel-full reply in its own queue, and the counter
    goes to 1 although no call was enqueued and no callback has run. *)
Lemma counter_counts_failed_enqueue :
  ∃ c0 w1,
    NewClient 2 one_server = (Ok c0, w1)
    ∧ let σ := run [OpAttach (Some 0%nat);
                    OpAsynCall "echo" [VInt 1; VCb on_value]]
                 (mkSys c0 w1 0 0 0) in
      pendingAsynCall (sys_client σ) = 1
      ∧ enqueued σ = 0
      ∧ acked σ = 0
      ∧ servers (sys_world σ) = servers one_server
      ∧ called (sys_world σ) = []
      ∧ buf <$> rets (sys_world σ) !! ChanAsynRet (sys_client σ)
        = Some [mkRetInfo VNil (Some "chanrpc channel full") (VCb on_value)].
Proof.
  eexists _, _. split; [reflexivity|].
  vm_compute. repeat split.
Qed.
